(** * Thai MMT4NL perturbations: a shallow embedding of [thai_perturb.py]

    The Python module is a registry of text-to-text rules.  A Python [str]
    is a sequence of Unicode code points, and every operation the rules use
    ([len], indexing, [in], [str.replace], [re.sub], [str.join]) works on
    code points, so a string is modelled as a list of code points. *)

From stdpp Require Import gmap strings list.

(** ** Python strings *)

Module Py.

(** A character is its code point; a string is the list of its
    characters. *)
Abbreviation char := N (only parsing).
Abbreviation pystr := (list N) (only parsing).

(** [s.startswith(pat)] *)
Fixpoint starts_with (s pat : pystr) : bool :=
  match pat, s with
  | [], _ => true
  | _ :: _, [] => false
  | p :: pat', c :: s' => (c =? p)%N && starts_with s' pat'
  end.

(** [sub in s]: some position of [s] starts a copy of [sub]. *)
Fixpoint contains (sub s : pystr) : bool :=
  starts_with s sub ||
  match s with
  | [] => false
  | _ :: s' => contains sub s'
  end.

(** The left-to-right scan of [str.replace] for a non-empty [old]:
    [skip] counts the characters of a copy of [old] that still have to be
    passed over after it was replaced. *)
Fixpoint replace_from (old new : pystr) (skip : nat) (s : pystr) : pystr :=
  match s with
  | [] => []
  | c :: s' =>
      match skip with
      | S k => replace_from old new k s'
      | O =>
          if starts_with s old
          then new ++ replace_from old new (length old - 1) s'
          else c :: replace_from old new 0 s'
      end
  end.

(** [s.replace(old, new)].  An empty [old] matches between every two
    characters and at both ends. *)
Definition replace (s old new : pystr) : pystr :=
  match old with
  | [] => new ++ flat_map (fun c => c :: new) s
  | _ :: _ => replace_from old new 0 s
  end.

(** [sep.join(parts)] with the empty separator, the only one the module
    uses. *)
Definition join (parts : list pystr) : pystr := concat parts.

End Py.

Export Py.

(** ** The string literals of the module, as code points *)

Module Lit.
#[local] Open Scope N_scope.

Definition space : pystr := [0x20].  (* " " *)

(** THAI_SYNONYMS headwords and alternatives *)
Definition di : pystr := [0xE14; 0xE35].  (* "ดี" *)
Definition yiam : pystr := [0xE40; 0xE22; 0xE35; 0xE48; 0xE22; 0xE21].  (* "เยี่ยม" *)
Definition yotyiam : pystr :=
  [0xE22; 0xE2D; 0xE14; 0xE40; 0xE22; 0xE35; 0xE48; 0xE22; 0xE21].  (* "ยอดเยี่ยม" *)
Definition loet : pystr := [0xE40; 0xE25; 0xE34; 0xE28].  (* "เลิศ" *)
Definition yae : pystr := [0xE41; 0xE22; 0xE48].  (* "แย่" *)
Definition leo : pystr := [0xE40; 0xE25; 0xE27].  (* "เลว" *)
Definition huai : pystr := [0xE2B; 0xE48; 0xE27; 0xE22].  (* "ห่วย" *)
Definition maidi : pystr := [0xE44; 0xE21; 0xE48; 0xE14; 0xE35].  (* "ไม่ดี" *)
Definition nueai : pystr := [0xE40; 0xE2B; 0xE19; 0xE37; 0xE48; 0xE2D; 0xE22].  (* "เหนื่อย" *)
Definition la : pystr := [0xE25; 0xE49; 0xE32].  (* "ล้า" *)
Definition mueai : pystr := [0xE40; 0xE21; 0xE37; 0xE48; 0xE2D; 0xE22].  (* "เมื่อย" *)
Definition onphlia : pystr :=
  [0xE2D; 0xE48; 0xE2D; 0xE19; 0xE40; 0xE1E; 0xE25; 0xE35; 0xE22].  (* "อ่อนเพลีย" *)

(** ner: the pronouns and the names that replace them *)
Definition chan : pystr := [0xE09; 0xE31; 0xE19].  (* "ฉัน" *)
Definition phom : pystr := [0xE1C; 0xE21].  (* "ผม" *)
Definition thoe : pystr := [0xE40; 0xE18; 0xE2D].  (* "เธอ" *)
Definition somchai : pystr := [0xE2A; 0xE21; 0xE0A; 0xE32; 0xE22].  (* "สมชาย" *)
Definition somying : pystr := [0xE2A; 0xE21; 0xE2B; 0xE0D; 0xE34; 0xE07].  (* "สมหญิง" *)

(** negation: the particle *)
Definition mai : pystr := [0xE44; 0xE21; 0xE48].  (* "ไม่" *)

(** vocab: the appended word *)
Definition blueberry : pystr :=
  [0xE1A; 0xE25; 0xE39; 0xE40; 0xE1A; 0xE2D; 0xE23; 0xE4C; 0xE23; 0xE35; 0xE48].  (* "บลูเบอร์รี่" *)

(** fairness: the role nouns and the gender suffixes; the replacement
    literals of the source are [teacher ++ female] and [student ++ male] *)
Definition teacher : pystr := [0xE04; 0xE23; 0xE39].  (* "ครู" *)
Definition female : pystr := [0xE1C; 0xE39; 0xE49; 0xE2B; 0xE0D; 0xE34; 0xE07].  (* "ผู้หญิง" *)
Definition student : pystr :=
  [0xE19; 0xE31; 0xE01; 0xE40; 0xE23; 0xE35; 0xE22; 0xE19].  (* "นักเรียน" *)
Definition male : pystr := [0xE0A; 0xE32; 0xE22].  (* "ชาย" *)

(** temporal: the prepended phrase *)
Definition yesterday : pystr :=
  [0xE40; 0xE21; 0xE37; 0xE48; 0xE2D; 0xE27; 0xE32; 0xE19; 0xE19; 0xE35; 0xE49].  (* "เมื่อวานนี้" *)

(** srl: the verb and its replacement *)
Definition kin : pystr := [0xE01; 0xE34; 0xE19].  (* "กิน" *)
Definition rapprathan : pystr :=
  [0xE23; 0xE31; 0xE1A; 0xE1B; 0xE23; 0xE30; 0xE17; 0xE32; 0xE19].  (* "รับประทาน" *)

(** the sample sentence of the demonstration entry point *)
Definition sample : pystr :=
  [0xE09; 0xE31; 0xE19; 0xE23; 0xE39; 0xE49; 0xE2A; 0xE36; 0xE01; 0xE14;
   0xE35; 0xE21; 0xE32; 0xE01; 0xE27; 0xE31; 0xE19; 0xE19; 0xE35; 0xE49].  (* "ฉันรู้สึกดีมากวันนี้" *)

End Lit.

(** ** [re.sub] for the patterns of the module

    The three patterns have the shape [\b lit \b].  For a [str] pattern
    [\w] is a Unicode alphanumeric character ([str.isalnum]) or the
    underscore, and [\b] holds where exactly one of the two neighbouring
    characters is a [\w] character, the outside of the string counting as
    not [\w]. *)

Module Re.

Definition in_range (lo hi c : N) : bool := (lo <=? c)%N && (c <=? hi)%N.

(** The ASCII part of [\w]: digits, letters and the underscore. *)
Definition ascii_word (c : char) : bool :=
  in_range 0x30 0x39 c || in_range 0x41 0x5A c || (c =? 0x5F)%N
  || in_range 0x61 0x7A c.

(** The Thai block, U+0E00 to U+0E7F: consonants and the spacing vowels are
    letters, the Thai digits are digits; the vowel signs and tone marks
    written above or below a consonant (U+0E31, U+0E34 to U+0E3A, U+0E47 to
    U+0E4E) are combining marks and not [\w]. *)
Definition thai_word (c : char) : bool :=
  in_range 0xE01 0xE30 c || in_range 0xE32 0xE33 c || in_range 0xE40 0xE46 c
  || in_range 0xE50 0xE59 c.

Section Word.

(** The Unicode character database is not part of the source: outside
    ASCII and the Thai block, [str.isalnum] is a parameter. *)
Variable other_alnum : char -> bool.

Definition is_word (c : char) : bool :=
  if (c <? 0x80)%N then ascii_word c
  else if in_range 0xE00 0xE7F c then thai_word c
  else other_alnum c.

Definition head_is_word (s : pystr) : bool :=
  match s with
  | [] => false
  | c :: _ => is_word c
  end.

(** Whether the character before the position reached after [lit] is a
    word character, [prevw] telling it for the position before [lit]. *)
Fixpoint word_after (prevw : bool) (lit : pystr) : bool :=
  match lit with
  | [] => prevw
  | c :: lit' => word_after (is_word c) lit'
  end.

(** [\b lit \b] matches at the head of [s], where [prevw] tells whether the
    character before [s] is a word character. *)
Definition match_bounded (lit : pystr) (prevw : bool) (s : pystr) : bool :=
  xorb prevw (head_is_word s)
  && starts_with s lit
  && xorb (word_after prevw lit) (head_is_word (drop (length lit) s)).

(** The scan of [re.sub]: leftmost matches, none overlapping; as in
    [replace_from], [skip] counts the matched characters still to pass. *)
Fixpoint sub_from (lit repl : pystr) (skip : nat) (prevw : bool) (s : pystr)
  : pystr :=
  match s with
  | [] => []
  | c :: s' =>
      match skip with
      | S k => sub_from lit repl k (is_word c) s'
      | O =>
          if match_bounded lit prevw s
          then repl ++ sub_from lit repl (length lit - 1) (is_word c) s'
          else c :: sub_from lit repl 0 (is_word c) s'
      end
  end.

(** [re.sub(r"\b" + lit + r"\b", repl, s)] for a non-empty [lit] and a
    [repl] without backslashes. *)
Definition sub_bounded (lit repl s : pystr) : pystr :=
  sub_from lit repl 0 false s.

End Word.

End Re.

(** ** The random source, exceptions and the monad of the rules *)

Module Random.

(** The state of the module-level generator of [random]: an arbitrary
    sequence of raw draws and a cursor into it. *)
Record rng : Type := { draws : nat -> nat; cursor : nat }.

(** [_randbelow(n)] for [0 < n]: one draw, reduced into [0 .. n-1]. *)
Definition randbelow (n : nat) (g : rng) : nat * rng :=
  (draws g (cursor g) mod n, {| draws := draws g; cursor := S (cursor g) |}).

(** What a call can raise: the two built-in exceptions of the calls the
    module makes, and whatever the tokenizer raises. *)
Inductive exn (E : Type) : Type :=
  | IndexError
  | ValueError
  | TokenizerError (e : E).
Arguments IndexError {E}.
Arguments ValueError {E}.
Arguments TokenizerError {E} e.

Inductive result (E A : Type) : Type :=
  | Raise (e : exn E)
  | Return (a : A).
Arguments Raise {E A} e.
Arguments Return {E A} a.

(** A computation that may draw from the random source and may raise. *)
Definition M (E A : Type) : Type := rng -> result E (A * rng).

Definition ret {E A} (a : A) : M E A := fun g => Return (a, g).

Definition raise {E A} (e : exn E) : M E A := fun _ => Raise e.

Definition bind {E A B} (m : M E A) (k : A -> M E B) : M E B :=
  fun g =>
    match m g with
    | Raise e => Raise e
    | Return (a, g') => k a g'
    end.

Notation "'let*' x ':=' m 'in' k" := (bind m (fun x => k))
  (at level 10, x name, m at level 100, k at level 200).

(** A list comprehension or generator whose element expression has
    effects: the elements are computed from left to right. *)
Fixpoint for_each {E A B} (f : A -> M E B) (xs : list A) : M E (list B) :=
  match xs with
  | [] => ret []
  | x :: xs' =>
      let* y := f x in
      let* ys := for_each f xs' in
      ret (y :: ys)
  end.

(** [random.choice(seq)]: [seq[_randbelow(len(seq))]]. *)
Definition choice {E A} (seq : list A) : M E A :=
  match seq with
  | [] => raise IndexError
  | _ :: _ =>
      fun g =>
        let (k, g') := randbelow (length seq) g in
        match seq !! k with
        | Some x => Return (x, g')
        | None => Raise IndexError
        end
  end.

(** [random.randint(a, b)]: [a + _randbelow(b - a + 1)]. *)
Definition randint {E} (a b : nat) : M E nat :=
  if b <? a then raise ValueError
  else fun g => let (k, g') := randbelow (b - a + 1) g in Return (a + k, g').

End Random.

Export Random.

(** ** The rules *)

Module Perturb.

Import Lit.

(** THAI_SYNONYMS *)
Definition THAI_SYNONYMS : gmap pystr (list pystr) :=
  <[nueai := [la; mueai; onphlia]]>
    (<[yae := [leo; huai; maidi]]>
       (<[di := [yiam; yotyiam; loet]]> ∅)).

Definition negation (sentence : pystr) : pystr :=
  if contains mai sentence then sentence else mai ++ space ++ sentence.

Definition vocab (sentence : pystr) : pystr :=
  sentence ++ space ++ blueberry.

Definition fairness (sentence : pystr) : pystr :=
  replace (replace sentence teacher (teacher ++ female))
          student (student ++ male).

Definition temporal (sentence : pystr) : pystr :=
  yesterday ++ space ++ sentence.

Definition srl (sentence : pystr) : pystr :=
  if contains kin sentence then replace sentence kin rapprathan else sentence.

Section Rules.

(** The Unicode table behind [\b] (see [Re.is_word]). *)
Variable other_alnum : char -> bool.

(** [pythainlp.tokenize.word_tokenize(sentence, keep_whitespace=False)]:
    the external segmenter, which returns the tokens or raises. *)
Variable E : Type.
Variable word_tokenize : pystr -> E + list pystr.

Definition tokenize (sentence : pystr) : M E (list pystr) :=
  match word_tokenize sentence with
  | inl e => raise (TokenizerError e)
  | inr tokens => ret tokens
  end.

Definition taxonomy (sentence : pystr) : M E pystr :=
  let* tokens := tokenize sentence in
  let* new_tokens :=
    for_each (fun tok => choice (default [tok] (THAI_SYNONYMS !! tok))) tokens in
  ret (join new_tokens).

Definition ner (sentence : pystr) : pystr :=
  let sentence := Re.sub_bounded other_alnum chan somchai sentence in
  let sentence := Re.sub_bounded other_alnum phom somchai sentence in
  let sentence := Re.sub_bounded other_alnum thoe somying sentence in
  sentence.

(** [chars] is the list of the characters of [word]; the tuple assignment
    reads both characters before it writes either. *)
Definition _swap_adjacent_chars (word : pystr) : M E pystr :=
  if length word <? 2 then ret word
  else
    let* idx := randint 0 (length word - 2) in
    let chars := word in
    match chars !! (idx + 1), chars !! idx with
    | Some a, Some b => ret (<[idx + 1 := b]> (<[idx := a]> chars))
    | _, _ => raise IndexError
    end.

Definition robustness (sentence : pystr) : M E pystr :=
  let* tokens := tokenize sentence in
  let* parts := for_each _swap_adjacent_chars tokens in
  ret (join parts).

(** A registered rule.  In Python every rule is a callable from [str] to
    [str]; the ones that neither draw nor raise are the pure functions above,
    called through [pure]. *)
Definition rule : Type := pystr -> M E pystr.

Definition pure (f : pystr -> pystr) : rule := fun sentence => ret (f sentence).

(** ALL_PERTURBATIONS, in the insertion order of the dict literal, which is
    the order [items()] yields. *)
Definition ALL_PERTURBATIONS : list (string * rule) :=
  [ ("taxonomy"%string, taxonomy);
    ("ner"%string, pure ner);
    ("negation"%string, pure negation);
    ("vocab"%string, pure vocab);
    ("fairness"%string, pure fairness);
    ("robustness"%string, robustness);
    ("temporal"%string, pure temporal);
    ("srl"%string, pure srl) ].

(** The dict comprehension [{name: fn(sentence) for name, fn in items}]. *)
Fixpoint dict_comp (items : list (string * rule)) (sentence : pystr)
    (acc : gmap string pystr) : M E (gmap string pystr) :=
  match items with
  | [] => ret acc
  | (name, fn) :: items' =>
      let* out := fn sentence in
      dict_comp items' sentence (<[name := out]> acc)
  end.

Definition apply_all (sentence : pystr) : M E (gmap string pystr) :=
  dict_comp ALL_PERTURBATIONS sentence ∅.

End Rules.

End Perturb.

Export Perturb.

(** ** Specification-level notions the claims are stated with *)

Module Spec.

Import Lit.

(** [sub] occurs in [s] as a substring. *)
Definition substring (sub s : pystr) : Prop :=
  exists a b : pystr, s = a ++ sub ++ b.

(** *** fairness *)

(** A suffix appended at every occurrence of [noun]: [seen] holds the
    characters passed so far, last one first, and [suf] is written after
    each character that completes a copy of [noun], whether or not that
    copy shares characters with an earlier one. *)
Fixpoint append_every (noun suf seen s : pystr) : pystr :=
  match s with
  | [] => []
  | c :: s' =>
      c :: (if starts_with (c :: seen) (rev noun) then suf else [])
        ++ append_every noun suf (c :: seen) s'
  end.

(** The same, but a copy of [noun] only counts when it lies wholly after the
    previous suffixed copy: [seen] starts afresh after each suffix. *)
Fixpoint append_scan (noun suf seen s : pystr) : pystr :=
  match s with
  | [] => []
  | c :: s' =>
      if starts_with (c :: seen) (rev noun)
      then c :: suf ++ append_scan noun suf [] s'
      else c :: append_scan noun suf (c :: seen) s'
  end.

(** The fairness rule as the spec words it: first the teacher noun, then the
    student noun, each suffixed at every occurrence. *)
Definition fairness_every (sentence : pystr) : pystr :=
  append_every student male [] (append_every teacher female [] sentence).

(** The fairness rule with the student noun suffixed at the occurrences a
    left-to-right scan meets. *)
Definition fairness_scan (sentence : pystr) : pystr :=
  append_scan student male [] (append_every teacher female [] sentence).

(** *** ner *)

Section Words.

Variable other_alnum : char -> bool.

Definition last_is_word (s : pystr) : bool :=
  match last s with
  | Some c => Re.is_word other_alnum c
  | None => false
  end.

(** A word boundary lies between [l] and [r]. *)
Definition boundary (l r : pystr) : bool :=
  xorb (last_is_word l) (Re.head_is_word other_alnum r).

(** [lit] stands as a whole word at the head of [s], [left] being the text
    before [s]. *)
Definition whole_word_here (lit left s : pystr) : bool :=
  starts_with s lit
  && boundary left s
  && boundary (left ++ lit) (drop (length lit) s).

(** [lit] occurs in [s] as a whole word. *)
Definition whole_word_in (lit s : pystr) : Prop :=
  exists a b : pystr, s = a ++ lit ++ b /\ whole_word_here lit a (lit ++ b) = true.

(** The pronouns and the name that stands for each. *)
Definition pronoun_names : list (pystr * pystr) :=
  [(chan, somchai); (phom, somchai); (thoe, somying)].

Fixpoint pronoun_here (table : list (pystr * pystr)) (left s : pystr)
  : option (pystr * pystr) :=
  match table with
  | [] => None
  | (lit, name) :: table' =>
      if whole_word_here lit left s then Some (lit, name)
      else pronoun_here table' left s
  end.

(** One pass over the sentence: at every position where a pronoun of the
    table stands as a whole word of the sentence its name is written and
    the pronoun passed over; every other character is kept. *)
Fixpoint replace_whole_words (table : list (pystr * pystr)) (skip : nat)
    (left s : pystr) : pystr :=
  match s with
  | [] => []
  | c :: s' =>
      match skip with
      | S k => replace_whole_words table k (left ++ [c]) s'
      | O =>
          match pronoun_here table left s with
          | Some (lit, name) =>
              name ++ replace_whole_words table (length lit - 1) (left ++ [c]) s'
          | None => c :: replace_whole_words table 0 (left ++ [c]) s'
          end
      end
  end.

Definition ner_spec (sentence : pystr) : pystr :=
  replace_whole_words pronoun_names 0 [] sentence.

End Words.

(** *** Segmentation failure *)

Definition raises {E A : Type} (r : result E A) : Prop :=
  exists e : exn E, r = Raise e.

(** A rule that depends on the tokenizer raises whenever the segmentation
    of a non-empty sentence fails or is empty. *)
Definition propagates_bad_segmentation (E : Type)
    (word_tokenize : pystr -> E + list pystr) : Prop :=
  forall (sentence : pystr) (g : rng),
    sentence <> [] ->
    (exists e : E, word_tokenize sentence = inl e)
    \/ word_tokenize sentence = inr [] ->
    raises (taxonomy E word_tokenize sentence g)
    /\ raises (robustness E word_tokenize sentence g).

(** *** The registry *)

Definition builtin_names : gset string :=
  {[ "taxonomy"; "ner"; "negation"; "vocab"; "fairness"; "robustness";
     "temporal"; "srl" ]}%string.


(** What the lexicon offers for a token: its alternatives, or the token
    itself when it has no entry. *)
Definition offered (tok out : pystr) : Prop :=
  (THAI_SYNONYMS !! tok = None /\ out = tok)
  \/ (exists alts : list pystr, THAI_SYNONYMS !! tok = Some alts /\ out ∈ alts).

End Spec.

Export Spec.

(** ** Notions used in the proofs *)

Module Aux.

(** The outcome of the character swap: nothing for a token shorter than
    two characters, else two neighbours exchanged. *)
Definition swapped (T out : pystr) : Prop :=
  (length T < 2 /\ out = T)
  \/ (exists pre a b post,
        T = pre ++ b :: a :: post /\ out = pre ++ a :: b :: post).

(** Two histories of [append_scan] or [append_every] that no later test
    can tell apart. *)
Definition same_view (noun seen1 seen2 : pystr) : Prop :=
  forall x : pystr,
    x <> [] ->
    starts_with (x ++ seen1) (rev noun) = starts_with (x ++ seen2) (rev noun).

(** No copy of [noun] starts inside another one. *)
Definition unbordered (noun : pystr) : Prop :=
  forall x rest : pystr,
    x <> [] -> length x < length noun ->
    starts_with (x ++ rev noun ++ rest) (rev noun) = false.

(** Conditions on a table [T] and a further pattern [p :: Q] under which
    substituting the pattern after the scan of [T] is one scan. *)

(** No character of [Q] starts a pronoun or a name of the table. *)
Definition inert (T : list (pystr * pystr)) (Q : pystr) : Prop :=
  Forall (fun x => Forall (fun e => head e.1 <> Some x /\ head e.2 <> Some x) T) Q.

(** The character [p] occurs in no name of the table. *)
Definition unnamed (T : list (pystr * pystr)) (p : char) : Prop :=
  Forall (fun e => p ∉ e.2) T.

Section Words.

Variable other_alnum : char -> bool.

(** The scan of [replace_whole_words] with, instead of the text to the left,
    only what the boundary test needs of it: whether its last character is a
    word character. *)
Fixpoint hit (table : list (pystr * pystr)) (prevw : bool) (s : pystr)
  : option (pystr * pystr) :=
  match table with
  | [] => None
  | (lit, name) :: table' =>
      if Re.match_bounded other_alnum lit prevw s then Some (lit, name)
      else hit table' prevw s
  end.

Fixpoint scan (table : list (pystr * pystr)) (skip : nat) (prevw : bool)
    (s : pystr) : pystr :=
  match s with
  | [] => []
  | c :: s' =>
      match skip with
      | S k => scan table k (Re.is_word other_alnum c) s'
      | O =>
          match hit table prevw s with
          | Some (lit, name) =>
              name ++ scan table (length lit - 1) (Re.is_word other_alnum c) s'
          | None => c :: scan table 0 (Re.is_word other_alnum c) s'
          end
      end
  end.

(** A pronoun and its name are non-empty and alike at both ends, so that
    the replacement moves no word boundary. *)
Definition entry_ok (e : pystr * pystr) : Prop :=
  e.1 <> [] /\ e.2 <> []
  /\ Re.head_is_word other_alnum e.1 = Re.head_is_word other_alnum e.2
  /\ Re.word_after other_alnum false e.1 = Re.word_after other_alnum false e.2.

(** A test that finds the whole-word occurrences of [lit] in [s], [left]
    being the text before [s]. *)
Fixpoint whole_word_from (lit left s : pystr) : bool :=
  whole_word_here other_alnum lit left s
  || match s with
     | [] => false
     | c :: s' => whole_word_from lit (left ++ [c]) s'
     end.

End Words.

End Aux.

Export Aux.

(** ** Stand-ins for the external parts, to run the rules on examples *)

Module Stub.

(** No alphanumeric characters outside ASCII and the Thai block. *)
Definition no_other_alnum : char -> bool := fun _ => false.

(** A segmenter that cuts at spaces and discards the empty pieces. *)
Fixpoint split_spaces (cur s : pystr) : list pystr :=
  match s with
  | [] => match cur with [] => [] | _ :: _ => [cur] end
  | c :: s' =>
      if (c =? 0x20)%N
      then match cur with [] => [] | _ :: _ => [cur] end ++ split_spaces [] s'
      else split_spaces (cur ++ [c]) s'
  end.

Definition space_tokenize (sentence : pystr) : Empty_set + list pystr :=
  inr (split_spaces [] sentence).

(** A segmenter that always fails. *)
Definition failing_tokenize (sentence : pystr) : unit + list pystr := inl tt.

(** A state of the random source. *)
Definition g0 : rng := {| draws := fun i => 2 * i + 1; cursor := 0 |}.

End Stub.

Export Stub.

(** ** Notions the further properties are stated with *)

Module More.

(** The random source after [n] more draws. *)
Definition advance (n : nat) (g : rng) : rng :=
  {| draws := draws g; cursor := n + cursor g |}.

(** The tokens the character swap draws for: those of two characters or
    more. *)
Fixpoint long_tokens (tokens : list pystr) : nat :=
  match tokens with
  | [] => 0
  | tok :: tokens' =>
      (if length tok <? 2 then 0 else 1) + long_tokens tokens'
  end.

(** No two neighbouring characters of [word] are equal. *)
Definition no_double (word : pystr) : Prop :=
  forall (i : nat) (a b : char),
    word !! i = Some a -> word !! (i + 1) = Some b -> a <> b.

End More.

Export More.

(** * Runs of the model on concrete sentences *)

Module Examples.

Import Lit.

(** ["aaa".replace("aa", "b") == "ba"]: leftmost copies, none overlapping. *)
Example replace_leftmost :
  replace [97; 97; 97]%N [97; 97]%N [98]%N = [98; 97]%N.
Proof. reflexivity. Qed.

(** ["ab".replace("", "-") == "-a-b-"] *)
Example replace_empty_old : replace [97; 98]%N [] [45]%N = [45; 97; 45; 98; 45]%N.
Proof. reflexivity. Qed.

(** In the sample sentence the pronoun is followed by a letter: no word
    boundary, no replacement. *)
Example ner_no_boundary : ner no_other_alnum sample = sample.
Proof. reflexivity. Qed.

(** Between spaces all three pronouns are replaced. *)
Example ner_three_pronouns :
  ner no_other_alnum (phom ++ space ++ chan ++ space ++ thoe)
  = somchai ++ space ++ somchai ++ space ++ somying.
Proof. reflexivity. Qed.

(** A tone mark is not a word character, so a pronoun that follows one
    starts at a word boundary. *)
Example ner_after_tone_mark :
  ner no_other_alnum ([0xE17; 0xE35; 0xE48]%N ++ phom)
  = [0xE17; 0xE35; 0xE48]%N ++ somchai.
Proof. reflexivity. Qed.

Example negation_sample : negation sample = mai ++ space ++ sample.
Proof. reflexivity. Qed.

Example fairness_both_nouns :
  fairness (teacher ++ student) = teacher ++ female ++ student ++ male.
Proof. reflexivity. Qed.

Example srl_two_verbs : srl (kin ++ space ++ kin) = rapprathan ++ space ++ rapprathan.
Proof. reflexivity. Qed.

(** The draws of [g0] are 1, 3, ...: the first token gets its alternative
    of index 1, the second has no entry and is kept. *)
Example taxonomy_run :
  taxonomy Empty_set space_tokenize (di ++ space ++ kin) g0
  = Return (yotyiam ++ kin, {| draws := draws g0; cursor := 2 |}).
Proof. reflexivity. Qed.

(** The draw 1, reduced into [0 .. 1], exchanges the characters at 1 and
    2. *)
Example robustness_run :
  robustness Empty_set space_tokenize kin g0
  = Return ([0xE01; 0xE19; 0xE34]%N, {| draws := draws g0; cursor := 1 |}).
Proof. reflexivity. Qed.

End Examples.

(** * Facts about the string primitives *)

Module PyFacts.

Lemma starts_with_nil (s : pystr) : starts_with s [] = true.
Proof. by destruct s. Qed.

Lemma starts_with_app (pat t : pystr) : starts_with (pat ++ t) pat = true.
Proof.
  induction pat as [|p pat IH]; simpl; [apply starts_with_nil|].
  by rewrite N.eqb_refl, IH.
Qed.

Lemma starts_with_inv (s pat : pystr) :
  starts_with s pat = true -> exists t, s = pat ++ t.
Proof.
  revert s; induction pat as [|p pat IH]; intros s H.
  - by exists s.
  - destruct s as [|c s]; simpl in H; [done|].
    apply andb_true_iff in H as [Hc Hs].
    apply N.eqb_eq in Hc as ->.
    destruct (IH _ Hs) as [t ->]. by exists t.
Qed.

Lemma starts_with_iff (s pat : pystr) :
  starts_with s pat = true <-> exists t, s = pat ++ t.
Proof.
  split; [apply starts_with_inv|].
  intros [t ->]. apply starts_with_app.
Qed.

(** Only the first [length pat] characters of [s] matter. *)
Lemma starts_with_app_l (s t pat : pystr) :
  length pat <= length s -> starts_with (s ++ t) pat = starts_with s pat.
Proof.
  revert s; induction pat as [|p pat IH]; intros s Hlen.
  - by rewrite !starts_with_nil.
  - destruct s as [|c s]; simpl in *; [lia|].
    rewrite IH by lia. done.
Qed.

Lemma starts_with_short (s pat : pystr) :
  length s < length pat -> starts_with s pat = false.
Proof.
  revert s; induction pat as [|p pat IH]; intros s Hlen; simpl in *; [lia|].
  destruct s as [|c s]; simpl in *; [done|].
  rewrite IH by lia. apply andb_false_r.
Qed.

Lemma contains_cons (sub : pystr) (c : char) (s : pystr) :
  contains sub (c :: s) = starts_with (c :: s) sub || contains sub s.
Proof. done. Qed.

Lemma contains_head (sub s : pystr) :
  starts_with s sub = true -> contains sub s = true.
Proof. intros H. destruct s; cbn [contains]; by rewrite H. Qed.

(** [in] is the substring relation. *)
Lemma contains_substring (sub s : pystr) :
  contains sub s = true <-> substring sub s.
Proof.
  split.
  - induction s as [|c s IH]; intros H.
    + destruct sub; [by exists [], []|done].
    + rewrite contains_cons in H. apply orb_true_iff in H as [H|H].
      * apply starts_with_inv in H as [t Ht]. exists [], t. done.
      * destruct (IH H) as (a & b & ->). by exists (c :: a), b.
  - intros (a & b & ->).
    induction a as [|c a IH].
    + apply contains_head, (starts_with_app sub b).
    + change ((c :: a) ++ sub ++ b) with (c :: (a ++ sub ++ b)).
      rewrite contains_cons, IH. apply orb_true_r.
Qed.

Lemma contains_app_mid (sub a b : pystr) : contains sub (a ++ sub ++ b) = true.
Proof. apply contains_substring. by exists a, b. Qed.

Lemma contains_app_head (sub b : pystr) : contains sub (sub ++ b) = true.
Proof. apply (contains_app_mid sub [] b). Qed.

Lemma contains_false_cons (sub : pystr) (c : char) (s : pystr) :
  contains sub (c :: s) = false ->
  starts_with (c :: s) sub = false /\ contains sub s = false.
Proof. rewrite contains_cons. apply orb_false_iff. Qed.

(** Passing [k] characters over is dropping them. *)
Lemma replace_from_drop (old new : pystr) (k : nat) (s : pystr) :
  replace_from old new k s = replace_from old new 0 (drop k s).
Proof.
  revert k; induction s as [|c s IH]; intros [|k]; simpl; done.
Qed.

Lemma replace_nil (old new : pystr) : old <> [] -> replace [] old new = [].
Proof. by destruct old. Qed.

(** The two steps of the scan: a copy of [old] at the head is replaced and
    the scan resumes after it; any other character is kept. *)
Lemma replace_hit (old new t : pystr) :
  old <> [] -> replace (old ++ t) old new = new ++ replace t old new.
Proof.
  destruct old as [|p old]; [done|]; intros _.
  pose proof (starts_with_app (p :: old) t) as Hsw.
  unfold replace. change ((p :: old) ++ t) with (p :: (old ++ t)) in *.
  cbn [replace_from]. rewrite Hsw.
  rewrite replace_from_drop.
  replace (length (p :: old) - 1) with (length old) by (simpl; lia).
  by rewrite drop_app_length.
Qed.

Lemma replace_miss (old new : pystr) (c : char) (t : pystr) :
  starts_with (c :: t) old = false ->
  replace (c :: t) old new = c :: replace t old new.
Proof.
  destruct old as [|p old]; [done|]; intros H.
  unfold replace. cbn [replace_from]. by rewrite H.
Qed.

(** Induction along the scan. *)
Lemma replace_ind (old new : pystr) (P : pystr -> pystr -> Prop) :
  old <> [] ->
  P [] [] ->
  (forall t, P t (replace t old new) ->
             P (old ++ t) (new ++ replace t old new)) ->
  (forall c t, starts_with (c :: t) old = false ->
               P t (replace t old new) ->
               P (c :: t) (c :: replace t old new)) ->
  forall s, P s (replace s old new).
Proof.
  intros Hold Hnil Hhit Hmiss s.
  remember (length s) as n eqn:Hn. revert s Hn.
  induction n as [n IH] using lt_wf_ind; intros s ->.
  destruct s as [|c t]; [by rewrite replace_nil|].
  destruct (starts_with (c :: t) old) eqn:Hsw.
  - apply starts_with_inv in Hsw as [u Hu]. rewrite Hu, replace_hit by done.
    apply Hhit. eapply IH; [|done].
    apply (f_equal length) in Hu. rewrite length_app in Hu. simpl in Hu.
    destruct old; [done|]. simpl in *. lia.
  - rewrite replace_miss by done. apply Hmiss; [done|].
    eapply IH; [|done]. simpl. lia.
Qed.

Lemma replace_absent (s old new : pystr) :
  contains old s = false -> replace s old new = s.
Proof.
  intros H. assert (Hold : old <> []).
  { intros ->. destruct s; discriminate. }
  induction s as [|c s IH]; [by apply replace_nil|].
  apply contains_false_cons in H as [Hsw Hc].
  rewrite replace_miss by done. by rewrite IH.
Qed.

Lemma replace_present (s old new : pystr) :
  old <> [] -> contains old s = true ->
  exists pre post, replace s old new = pre ++ new ++ post.
Proof.
  intros Hold.
  apply (replace_ind old new
           (fun s r => contains old s = true -> exists pre post, r = pre ++ new ++ post));
    [done|..].
  - destruct old; [done|]. discriminate.
  - intros t _ _. by exists [], (replace t old new).
  - intros c t Hsw IH Hc. rewrite contains_cons, Hsw in Hc. simpl in Hc.
    destruct (IH Hc) as (pre & post & ->). by exists (c :: pre), post.
Qed.

Lemma replace_length_le (s old new : pystr) :
  old <> [] -> length old <= length new ->
  length s <= length (replace s old new).
Proof.
  intros Hold Hlen.
  apply (replace_ind old new (fun s r => length s <= length r)); [done|..].
  - done.
  - intros t IH. rewrite !length_app. lia.
  - intros c t _ IH. simpl. lia.
Qed.

Lemma replace_length_lt (s old new : pystr) :
  old <> [] -> length old < length new -> contains old s = true ->
  length s < length (replace s old new).
Proof.
  intros Hold Hlen.
  apply (replace_ind old new
           (fun s r => contains old s = true -> length s < length r)); [done|..].
  - destruct old; [done|]. discriminate.
  - intros t _ _. rewrite !length_app.
    pose proof (replace_length_le t old new Hold). lia.
  - intros c t Hsw IH Hc. rewrite contains_cons, Hsw in Hc. simpl in Hc.
    specialize (IH Hc). simpl. lia.
Qed.

End PyFacts.

Import PyFacts.

(** * The deterministic string rules *)

Module ReplaceFacts.

(** A pattern whose first character does not occur in [new] cannot start
    inside a copy of [new]. *)
Lemma contains_app_no_head (p : char) (q new r : pystr) :
  p ∉ new -> contains (p :: q) (new ++ r) = contains (p :: q) r.
Proof.
  induction new as [|a new IH]; intros Hp; [done|].
  change ((a :: new) ++ r) with (a :: (new ++ r)).
  rewrite contains_cons. cbn [starts_with].
  apply not_elem_of_cons in Hp as [Hne Hp].
  assert ((a =? p)%N = false) as -> by (apply N.eqb_neq; congruence).
  simpl. by apply IH.
Qed.

(** What the output of the scan starts with, the input started with, as
    long as none of these characters is the first one of the replacement. *)
Lemma starts_with_replace_inv (old : pystr) (n : char) (new q s : pystr) :
  old <> [] -> n ∉ q ->
  starts_with (replace s old (n :: new)) q = true -> starts_with s q = true.
Proof.
  intros Hold. revert s.
  induction q as [|x q IH]; intros s Hn; [by rewrite !starts_with_nil|].
  apply not_elem_of_cons in Hn as [Hne Hn].
  destruct s as [|c t]; [by rewrite replace_nil|].
  destruct (starts_with (c :: t) old) eqn:Hsw.
  - apply starts_with_inv in Hsw as [u ->]. rewrite replace_hit by done.
    simpl.
    assert ((n =? x)%N = false) as -> by (apply N.eqb_neq; congruence).
    done.
  - rewrite replace_miss by done. cbn [starts_with].
    intros [-> H]%andb_true_iff. by rewrite (IH _ Hn H).
Qed.

(** After the scan no copy of [old] is left, when the first character of
    [old] does not occur in the replacement and the first character of the
    replacement does not occur in the rest of [old]. *)
Lemma replace_removes (p : char) (q : pystr) (n : char) (new s : pystr) :
  p ∉ n :: new -> n ∉ q ->
  contains (p :: q) (replace s (p :: q) (n :: new)) = false.
Proof.
  intros Hp Hn.
  apply (replace_ind (p :: q) (n :: new)
           (fun _ r => contains (p :: q) r = false)); [done|done|..].
  - intros t IH. by rewrite contains_app_no_head.
  - intros c t Hsw IH. rewrite contains_cons, IH, orb_false_r.
    destruct (starts_with (c :: replace t (p :: q) (n :: new)) (p :: q)) eqn:H;
      [|done].
    cbn [starts_with] in H, Hsw.
    apply andb_true_iff in H as [Hc H].
    apply starts_with_replace_inv in H; [|done|done].
    by rewrite Hc, H in Hsw.
Qed.

End ReplaceFacts.

Import ReplaceFacts.
Import Lit.

(** C3. A sentence that contains the negation particle is returned as it
    is; any other sentence comes back as the particle, a space and the
    sentence; hence applying the rule twice is applying it once. *)
Theorem negation_spec (S : pystr) :
  (substring mai S -> negation S = S)
  /\ (~ substring mai S -> negation S = mai ++ space ++ S)
  /\ negation (negation S) = negation S.
Proof.
  unfold negation. destruct (contains mai S) eqn:H.
  - split; [done|]. split; [|by rewrite H].
    intros Hn. destruct Hn. by apply contains_substring.
  - split; [|split; [done|]].
    + intros Hs%contains_substring. congruence.
    + by rewrite contains_app_head.
Qed.

Lemma negation_spec_witness :
  negation maidi = maidi /\ negation sample = mai ++ space ++ sample.
Proof.
  split.
  - apply (proj1 (negation_spec maidi)). exists [], di. reflexivity.
  - apply (proj1 (proj2 (negation_spec sample))).
    intros H. apply contains_substring in H. vm_compute in H. discriminate H.
Defined.

(** The verb is gone after one application of srl. *)
Lemma srl_verb_gone (S : pystr) : contains kin (srl S) = false.
Proof.
  unfold srl. destruct (contains kin S) eqn:H; [|done].
  apply replace_removes; unfold rapprathan;
    rewrite ?not_elem_of_cons; repeat split; try done; apply not_elem_of_nil.
Qed.

(** C10. srl is idempotent: the replacement holds no copy of the verb, one
    application leaves no copy of the verb in the sentence, and so a second
    application finds nothing to replace. *)
Theorem srl_idempotent (S : pystr) :
  contains kin rapprathan = false
  /\ contains kin (srl S) = false
  /\ srl (srl S) = srl S.
Proof.
  pose proof (srl_verb_gone S) as H.
  split; [reflexivity|]. split; [done|].
  unfold srl at 1. by rewrite H.
Qed.

(** fairness never shortens a sentence, and lengthens one that holds a
    role noun. *)
Lemma fairness_grows (S : pystr) :
  contains teacher S = true \/ contains student S = true ->
  length S < length (fairness S).
Proof.
  intros H. unfold fairness.
  set (S1 := replace S teacher (teacher ++ female)).
  assert (length S1 <= length (replace S1 student (student ++ male))) as H2
    by (apply replace_length_le; [done | simpl; lia]).
  destruct (contains teacher S) eqn:Ht.
  - assert (length S < length S1)
      by (apply replace_length_lt; [done | simpl; lia | done]).
    lia.
  - assert (S1 = S) as HS1 by (by apply replace_absent).
    destruct H as [H|H]; [done|]. rewrite HS1.
    apply replace_length_lt; [done | simpl; lia | done].
Qed.

(** The output of fairness still holds a role noun when the input did:
    each replacement starts with the noun it replaces. *)
Lemma fairness_keeps_noun (S : pystr) :
  contains teacher S = true \/ contains student S = true ->
  contains teacher (fairness S) = true \/ contains student (fairness S) = true.
Proof.
  intros H. unfold fairness.
  set (S1 := replace S teacher (teacher ++ female)).
  destruct (contains student S1) eqn:Hs.
  - right.
    destruct (replace_present S1 student (student ++ male)) as (pre & post & ->);
      [done|done|].
    rewrite <- (assoc_L (++) student). apply contains_app_mid.
  - rewrite (replace_absent S1) by done.
    destruct (contains teacher S) eqn:Ht.
    + left. subst S1.
      destruct (replace_present S teacher (teacher ++ female))
        as (pre & post & ->); [done|done|].
      rewrite <- (assoc_L (++) teacher). apply contains_app_mid.
    + assert (S1 = S) as HS1 by (by apply replace_absent).
      destruct H as [H|H]; [done|]. congruence.
Qed.

(** C9. fairness is not idempotent: on a sentence that contains the teacher
    noun or the student noun the output still contains one of them, and a
    second application makes it longer again. *)
Theorem fairness_not_idempotent :
  (exists S : pystr, fairness (fairness S) <> fairness S)
  /\ (forall S : pystr,
        substring teacher S \/ substring student S ->
        (substring teacher (fairness S) \/ substring student (fairness S))
        /\ fairness (fairness S) <> fairness S).
Proof.
  assert (forall S : pystr,
             substring teacher S \/ substring student S ->
             (substring teacher (fairness S) \/ substring student (fairness S))
             /\ fairness (fairness S) <> fairness S) as Hall.
  { intros S H. rewrite <- !contains_substring in H.
    pose proof (fairness_keeps_noun S H) as Hk.
    split; [by rewrite <- !contains_substring|].
    pose proof (fairness_grows _ Hk) as Hg.
    intros Heq. rewrite Heq in Hg. lia. }
  split; [|done].
  exists teacher. apply Hall. left. exists [], []. reflexivity.
Qed.

Lemma fairness_not_idempotent_witness :
  fairness (fairness student) <> fairness student.
Proof.
  apply (proj2 fairness_not_idempotent student).
  right. exists [], []. reflexivity.
Defined.

(** * fairness as a suffix written after occurrences *)

Module AppendFacts.

(** [noun] ends [x] when the reversed noun starts the reversed [x]. *)
Lemma starts_with_rev (x noun : pystr) :
  starts_with (rev x) (rev noun) = true <-> exists p, x = p ++ noun.
Proof.
  rewrite starts_with_iff. split.
  - intros [t Ht]. exists (rev t).
    apply (f_equal (@rev char)) in Ht.
    by rewrite rev_involutive, rev_app_distr, rev_involutive in Ht.
  - intros [p ->]. exists (rev p). by rewrite rev_app_distr.
Qed.

(** One more character brings a copy of [noun] only if it completes it. *)
Lemma contains_snoc_false (noun u : pystr) (c : char) :
  contains noun u = false ->
  starts_with (c :: rev u) (rev noun) = false ->
  contains noun (u ++ [c]) = false.
Proof.
  intros Hu Hend.
  destruct (contains noun (u ++ [c])) eqn:H; [|done].
  apply contains_substring in H as (a & b & H).
  destruct b as [|d b _] using rev_ind.
  - rewrite app_nil_r in H.
    assert (starts_with (rev (u ++ [c])) (rev noun) = true) as Hsw
      by (apply starts_with_rev; by exists a).
    rewrite rev_app_distr in Hsw.
    change (rev [c] ++ rev u) with (c :: rev u) in Hsw. congruence.
  - rewrite !app_assoc in H. apply app_inj_tail in H as [H _].
    assert (contains noun u = true) as Hc
      by (apply contains_substring; exists a, b; by rewrite H, <- app_assoc).
    congruence.
Qed.

(** The scan keeps everything before the first copy of [old]. *)
Lemma replace_first (old new u w t : pystr) (c : char) :
  old <> [] -> contains old w = false -> w ++ [c] = u ++ old ->
  replace (w ++ c :: t) old new = u ++ new ++ replace t old new.
Proof.
  intros Hold. revert w.
  induction u as [|a u IH]; intros w Hw Heq.
  - simpl in Heq. rewrite (cons_middle c), app_assoc, Heq.
    by rewrite replace_hit.
  - destruct w as [|a' w].
    { simpl in Heq. injection Heq as _ Heq. symmetry in Heq.
      apply app_eq_nil in Heq as [_ ?]. done. }
    simpl in Heq. injection Heq as -> Heq.
    apply contains_false_cons in Hw as [Hsw Hw].
    change ((a :: w) ++ c :: t) with (a :: (w ++ c :: t)).
    rewrite replace_miss.
    + simpl. f_equal. by apply IH.
    + change (a :: (w ++ c :: t)) with ((a :: w) ++ c :: t).
      rewrite starts_with_app_l; [done|].
      apply (f_equal length) in Heq. rewrite !length_app in Heq.
      simpl in *. lia.
Qed.

(** [str.replace] of a noun by the noun and a suffix writes the suffix
    after the copies of the noun that [append_scan] counts. *)
Lemma replace_append_scan_gen (noun suf : pystr) :
  noun <> [] ->
  forall s seen : pystr,
    contains noun (rev seen) = false ->
    replace (rev seen ++ s) noun (noun ++ suf)
    = rev seen ++ append_scan noun suf seen s.
Proof.
  intros Hnoun.
  assert (contains noun [] = false) as Hnil by (by destruct noun).
  induction s as [|c t IH]; intros seen Hseen.
  - rewrite !app_nil_r. by apply replace_absent.
  - cbn [append_scan].
    destruct (starts_with (c :: seen) (rev noun)) eqn:Hsw.
    + assert (exists p, rev seen ++ [c] = p ++ noun) as [p Hp].
      { apply starts_with_rev. by rewrite rev_app_distr, rev_involutive. }
      rewrite (replace_first noun (noun ++ suf) p (rev seen) t c) by done.
      pose proof (IH [] Hnil) as IHt. simpl in IHt. rewrite IHt.
      rewrite (cons_middle c (rev seen)), (app_assoc (rev seen)), Hp.
      by rewrite <- !app_assoc.
    + rewrite (cons_middle c (rev seen)), app_assoc.
      change (rev seen ++ [c]) with (rev (c :: seen)).
      rewrite IH; [simpl; by rewrite <- app_assoc|].
      simpl. apply contains_snoc_false; [done|].
      by rewrite rev_involutive.
Qed.

Lemma replace_append_scan (noun suf s : pystr) :
  noun <> [] -> replace s noun (noun ++ suf) = append_scan noun suf [] s.
Proof.
  intros Hnoun.
  apply (replace_append_scan_gen noun suf Hnoun s []). by destruct noun.
Qed.

Lemma append_scan_every_gen (noun suf : pystr) :
  unbordered noun ->
  forall s seen1 seen2 : pystr,
    same_view noun seen1 seen2 ->
    append_scan noun suf seen1 s = append_every noun suf seen2 s.
Proof.
  intros Hun. induction s as [|c t IH]; intros seen1 seen2 Hview; [done|].
  cbn [append_scan append_every].
  assert (starts_with (c :: seen1) (rev noun)
          = starts_with (c :: seen2) (rev noun)) as Hc by (by apply (Hview [c])).
  rewrite <- Hc.
  destruct (starts_with (c :: seen1) (rev noun)) eqn:Hsw.
  - f_equal. f_equal. apply IH. intros x Hx. rewrite app_nil_r.
    symmetry in Hc.
    apply starts_with_inv in Hc as [rest Hrest]. rewrite Hrest.
    destruct (decide (length x < length noun)) as [Hlt|Hge].
    + rewrite (Hun x rest) by done.
      apply starts_with_short. by rewrite length_rev.
    + symmetry. apply starts_with_app_l. rewrite length_rev. lia.
  - simpl. f_equal. apply IH. intros x Hx.
    rewrite !(cons_middle c), !app_assoc. apply Hview.
    by destruct x.
Qed.

Lemma append_scan_every (noun suf s : pystr) :
  unbordered noun -> append_scan noun suf [] s = append_every noun suf [] s.
Proof. intros Hun. by apply append_scan_every_gen. Qed.

Lemma teacher_unbordered : unbordered Lit.teacher.
Proof.
  intros x rest Hx Hlen.
  destruct x as [|a [|b [|d x]]]; simpl in *; try done; lia.
Qed.

End AppendFacts.

Import AppendFacts.

(** The first pass of fairness writes the suffix after every copy of the
    teacher noun, the second after the copies of the student noun that a
    scan from the left counts. *)
Lemma fairness_passes (S : pystr) :
  replace S teacher (teacher ++ female) = append_every teacher female [] S
  /\ forall S1 : pystr,
       replace S1 student (student ++ male) = append_scan student male [] S1.
Proof.
  split.
  - rewrite replace_append_scan by done.
    apply append_scan_every, teacher_unbordered.
  - intros S1. by apply replace_append_scan.
Qed.

(** C7 (as amended). fairness appends the gender suffixes by two literal
    substitutions in a fixed order, wherever the noun stands: first after
    every occurrence of the teacher noun, then after every occurrence of the
    student noun that lies wholly after the previous suffixed one. *)
Theorem fairness_is_scan (S : pystr) : fairness S = fairness_scan S.
Proof.
  unfold fairness, fairness_scan.
  destruct (fairness_passes S) as [-> H2]. apply H2.
Qed.

(** C7 (as stated) fails on two copies of the student noun that share a
    character: only the first copy gets the suffix. *)
Lemma fairness_every_counterexample :
  substring student (drop 7 (student ++ drop 1 student))
  /\ fairness (student ++ drop 1 student) = student ++ male ++ drop 1 student
  /\ fairness_every (student ++ drop 1 student)
     = student ++ male ++ drop 1 student ++ male
  /\ fairness (student ++ drop 1 student)
     <> fairness_every (student ++ drop 1 student).
Proof.
  split; [by exists [], []|].
  split; [reflexivity|]. split; [reflexivity|]. discriminate.
Qed.

(** * The rules that tokenize and draw *)

Module MonadFacts.

Lemma bind_return {E A B} (m : M E A) (k : A -> M E B) (g g' : rng) (a : A) :
  m g = Return (a, g') -> bind m k g = k a g'.
Proof. unfold bind. by intros ->. Qed.

Lemma bind_raise {E A B} (m : M E A) (k : A -> M E B) (g : rng) (e : exn E) :
  m g = Raise e -> bind m k g = Raise e.
Proof. unfold bind. by intros ->. Qed.

(** A choice from a non-empty sequence returns one of its elements. *)
Lemma choice_returns {E A} (seq : list A) (g : rng) :
  seq <> [] ->
  exists x g', choice (E:=E) seq g = Return (x, g') /\ x ∈ seq.
Proof.
  intros Hne. destruct seq as [|a seq]; [done|].
  unfold choice, randbelow.
  set (k := draws g (cursor g) mod length (a :: seq)).
  assert (k < length (a :: seq)) as Hk by (apply Nat.mod_upper_bound; done).
  destruct (lookup_lt_is_Some_2 _ _ Hk) as [x Hx]. rewrite Hx.
  eexists _, _. split; [done|]. by eapply list_elem_of_lookup_2.
Qed.

(** A draw of [randint a b] with [a <= b] lies between the bounds. *)
Lemma randint_returns {E} (a b : nat) (g : rng) :
  a <= b ->
  exists k g', randint (E:=E) a b g = Return (k, g') /\ a <= k <= b.
Proof.
  intros Hab. unfold randint.
  destruct (b <? a) eqn:Hlt; [apply Nat.ltb_lt in Hlt; lia|].
  unfold randbelow.
  pose proof (Nat.mod_upper_bound (draws g (cursor g)) (b - a + 1)).
  eexists _, _. split; [done|]. lia.
Qed.

(** A comprehension whose element expression always returns, returns. *)
Lemma for_each_returns {E A B} (f : A -> M E B) (R : A -> B -> Prop) :
  (forall x g, exists y g', f x g = Return (y, g') /\ R x y) ->
  forall xs g, exists ys g', for_each f xs g = Return (ys, g') /\ Forall2 R xs ys.
Proof.
  intros Hf. induction xs as [|x xs IH]; intros g.
  - exists [], g. by split.
  - destruct (Hf x g) as (y & g1 & Hy & HR).
    destruct (IH g1) as (ys & g2 & Hys & HRs).
    exists (y :: ys), g2. split; [|by constructor].
    cbn [for_each]. rewrite (bind_return _ _ _ _ _ Hy).
    by rewrite (bind_return _ _ _ _ _ Hys).
Qed.

End MonadFacts.

Import MonadFacts.

(** Every entry of the lexicon offers something. *)
Lemma lexicon_offers (tok : pystr) :
  default [tok] (THAI_SYNONYMS !! tok) <> []
  /\ forall out, out ∈ default [tok] (THAI_SYNONYMS !! tok) -> offered tok out.
Proof.
  unfold offered, THAI_SYNONYMS.
  destruct (decide (tok = nueai)) as [->|H1].
  { rewrite lookup_insert_eq. split; [done|]. intros out Hout. right. eauto. }
  rewrite lookup_insert_ne by done.
  destruct (decide (tok = yae)) as [->|H2].
  { rewrite lookup_insert_eq. split; [done|]. intros out Hout. right. eauto. }
  rewrite lookup_insert_ne by done.
  destruct (decide (tok = di)) as [->|H3].
  { rewrite lookup_insert_eq. split; [done|]. intros out Hout. right. eauto. }
  rewrite lookup_insert_ne, lookup_empty by done.
  split; [done|]. intros out Hout%list_elem_of_singleton. by left.
Qed.

(** Exchanging two neighbours by two indexed assignments. *)
Lemma swap_by_insert {A} (pre post : list A) (a b : A) :
  <[length pre + 1 := b]> (<[length pre := a]> (pre ++ b :: a :: post))
  = pre ++ a :: b :: post.
Proof. induction pre as [|x pre IH]; simpl; [done|]. by f_equal. Qed.

Section RuleFacts.

Context (other_alnum : char -> bool) (E : Type).
Context (word_tokenize : pystr -> E + list pystr).

Lemma swap_returns (T : pystr) (g : rng) :
  exists out g',
    _swap_adjacent_chars E T g = Return (out, g') /\ swapped T out.
Proof.
  unfold _swap_adjacent_chars.
  destruct (length T <? 2) eqn:Hlen.
  - apply Nat.ltb_lt in Hlen. exists T, g. split; [done|]. by left.
  - apply Nat.ltb_ge in Hlen.
    destruct (randint_returns (E:=E) 0 (length T - 2) g) as (idx & g' & Hr & Hidx);
      [lia|].
    rewrite (bind_return _ _ _ _ _ Hr).
    destruct (lookup_lt_is_Some_2 T idx) as [b Hb]; [lia|].
    destruct (lookup_lt_is_Some_2 T (idx + 1)) as [a Ha]; [lia|].
    cbv zeta. rewrite Ha, Hb.
    pose proof (take_drop_middle _ _ _ Hb) as HT.
    assert (drop (S idx) T = a :: drop (S (S idx)) T) as Hd.
    { rewrite <- (take_drop_middle _ _ _ Ha) at 1.
      replace (idx + 1) with (S idx) by lia.
      rewrite drop_app_length'; [done|].
      rewrite length_take. apply lookup_lt_Some in Ha. lia. }
    rewrite Hd in HT.
    assert (length (take idx T) = idx) as Hpre
      by (rewrite length_take; lia).
    generalize dependent (take idx T). generalize (drop (S (S idx)) T).
    intros post pre HT Hpre. subst T idx.
    exists (pre ++ a :: b :: post), g'. split.
    + unfold ret. do 2 f_equal. apply swap_by_insert.
    + right. by exists pre, a, b, post.
Qed.

Lemma tokenize_returns (S : pystr) (toks : list pystr) (g : rng) :
  word_tokenize S = inr toks -> tokenize E word_tokenize S g = Return (toks, g).
Proof. unfold tokenize. by intros ->. Qed.

Lemma tokenize_raises (S : pystr) (e : E) (g : rng) :
  word_tokenize S = inl e ->
  tokenize E word_tokenize S g = Raise (TokenizerError e).
Proof. unfold tokenize. by intros ->. Qed.

Lemma taxonomy_returns (S : pystr) (toks : list pystr) (g : rng) :
  word_tokenize S = inr toks ->
  exists outs g',
    taxonomy E word_tokenize S g = Return (join outs, g')
    /\ Forall2 offered toks outs.
Proof.
  intros Htok. unfold taxonomy.
  rewrite (bind_return _ _ _ _ _ (tokenize_returns S toks g Htok)).
  destruct (for_each_returns (E:=E)
              (fun tok => choice (default [tok] (THAI_SYNONYMS !! tok)))
              offered) with (xs := toks) (g := g) as (outs & g' & Hfe & HR).
  { intros tok g1. destruct (lexicon_offers tok) as [Hne Hoff].
    destruct (choice_returns (E:=E) _ g1 Hne) as (x & g2 & Hx & Hin).
    exists x, g2. split; [done|]. by apply Hoff. }
  rewrite (bind_return _ _ _ _ _ Hfe). by exists outs, g'.
Qed.

Lemma robustness_returns (S : pystr) (toks : list pystr) (g : rng) :
  word_tokenize S = inr toks ->
  exists outs g',
    robustness E word_tokenize S g = Return (join outs, g')
    /\ Forall2 swapped toks outs.
Proof.
  intros Htok. unfold robustness.
  rewrite (bind_return _ _ _ _ _ (tokenize_returns S toks g Htok)).
  destruct (for_each_returns (_swap_adjacent_chars E) swapped swap_returns toks g)
    as (outs & g' & Hfe & HR).
  rewrite (bind_return _ _ _ _ _ Hfe). by exists outs, g'.
Qed.

(** C5. Whatever the random source yields, taxonomy returns the tokens of
    the segmentation, in order and joined without a separator, each one
    replaced by one of its alternatives in the lexicon, or kept when the
    lexicon has no entry for it. *)
Theorem taxonomy_tokens (S : pystr) (toks : list pystr) (g : rng) :
  word_tokenize S = inr toks ->
  exists (outs : list pystr) (g' : rng),
    taxonomy E word_tokenize S g = Return (concat outs, g')
    /\ Forall2 offered toks outs.
Proof. apply taxonomy_returns. Qed.

(** C4. On a sentence that segments into the single token T, robustness
    returns T itself when T is shorter than two characters, and otherwise T
    with two neighbouring characters exchanged: a string of the same length,
    a permutation of T, equal to T outside two adjacent positions. *)
Theorem robustness_single_token (S T : pystr) (g : rng) :
  word_tokenize S = inr [T] ->
  exists (out : pystr) (g' : rng),
    robustness E word_tokenize S g = Return (out, g')
    /\ (length T < 2 -> out = T)
    /\ (2 <= length T ->
        exists pre a b post, T = pre ++ b :: a :: post /\ out = pre ++ a :: b :: post)
    /\ length out = length T
    /\ T ≡ₚ out
    /\ exists i, forall j, j <> i -> j <> i + 1 -> out !! j = T !! j.
Proof.
  intros Htok.
  destruct (robustness_returns S [T] g Htok) as (outs & g' & Hr & HR).
  apply Forall2_cons_inv_l in HR as (out & outs' & Hsw & HR & ->).
  apply Forall2_nil_inv_l in HR as ->.
  unfold join in Hr. simpl in Hr. rewrite app_nil_r in Hr.
  exists out, g'. split; [done|].
  destruct Hsw as [[Hlen ->]|(pre & a & b & post & -> & ->)].
  - split; [done|]. split; [lia|]. split; [done|]. split; [done|].
    by exists 0.
  - split; [rewrite length_app; simpl; lia|].
    split; [by exists pre, a, b, post|].
    split; [by rewrite !length_app|].
    split; [apply Permutation_app_head, perm_swap|].
    exists (length pre). intros j Hj Hj1.
    destruct (decide (j < length pre)) as [Hlt|Hge].
    + by rewrite !lookup_app_l.
    + rewrite !lookup_app_r by lia.
      destruct (j - length pre) as [|[|n]] eqn:Hn; [lia|lia|done].
Qed.

(** The names of the registry are the eight built-in names. *)
Lemma registry_names (name : string) :
  name ∈ builtin_names
  <-> exists r, (name, r) ∈ ALL_PERTURBATIONS other_alnum E word_tokenize.
Proof.
  unfold builtin_names, ALL_PERTURBATIONS. split.
  - rewrite !elem_of_union, !elem_of_singleton.
    intros H. repeat (destruct H as [H| ->]; [|eexists; repeat constructor]).
    subst name. eexists; repeat constructor.
  - intros [r Hr].
    repeat (apply elem_of_cons in Hr as [[= -> ->]|Hr]; [set_solver|]).
    by apply elem_of_nil in Hr.
Qed.

(** C2. Whatever the sentence, the empty one and the blank ones included,
    apply_all returns, once the tokenizer has returned, a mapping whose keys
    are exactly the eight built-in names: one entry for each registered
    rule, none left out and none twice. *)
Theorem apply_all_names (S : pystr) (toks : list pystr) (g : rng) :
  word_tokenize S = inr toks ->
  exists (m : gmap string (list N)) (g' : rng),
    apply_all other_alnum E word_tokenize S g = Return (m, g')
    /\ dom m = builtin_names
    /\ size m = 8
    /\ size m = length (ALL_PERTURBATIONS other_alnum E word_tokenize)
    /\ (forall name,
          is_Some (m !! name)
          <-> exists r, (name, r) ∈ ALL_PERTURBATIONS other_alnum E word_tokenize).
Proof.
  intros Htok.
  destruct (taxonomy_returns S toks g Htok) as (outs1 & g1 & Ht & _).
  destruct (robustness_returns S toks g1 Htok) as (outs2 & g2 & Hr & _).
  unfold apply_all, ALL_PERTURBATIONS. cbn [dict_comp].
  rewrite (bind_return _ _ _ _ _ Ht).
  unfold pure, ret, bind at 1 2 3 4. rewrite (bind_return _ _ _ _ _ Hr).
  unfold bind.
  eexists _, _. split; [reflexivity|].
  assert (forall m : gmap string (list N),
             dom m = builtin_names ->
             dom m = builtin_names
             /\ (forall name,
                   is_Some (m !! name)
                   <-> exists r,
                       (name, r) ∈ ALL_PERTURBATIONS other_alnum E word_tokenize))
    as Hdom.
  { intros m Hm. split; [done|]. intros name.
    by rewrite <- elem_of_dom, Hm, registry_names. }
  match goal with
  | |- dom ?m = _ /\ _ =>
      destruct (Hdom m) as [H1 H2];
      [rewrite !dom_insert_L, dom_empty_L; unfold builtin_names; set_solver|]
  end.
  split; [done|]. split; [reflexivity|]. split; [reflexivity|]. done.
Qed.


(** C1 (as amended). A failure of the tokenizer comes out of taxonomy and
    of robustness as it is; an empty segmentation is no failure: both rules
    return the empty string and draw nothing. *)
Theorem segmentation_outcome (S : pystr) (g : rng) :
  (forall e : E,
      word_tokenize S = inl e ->
      taxonomy E word_tokenize S g = Raise (TokenizerError e)
      /\ robustness E word_tokenize S g = Raise (TokenizerError e))
  /\ (word_tokenize S = inr [] ->
      taxonomy E word_tokenize S g = Return ([], g)
      /\ robustness E word_tokenize S g = Return ([], g)).
Proof.
  split.
  - intros e He. unfold taxonomy, robustness.
    by rewrite !(bind_raise _ _ _ _ (tokenize_raises S e g He)).
  - intros Hnil. unfold taxonomy, robustness.
    by rewrite !(bind_return _ _ _ _ _ (tokenize_returns S [] g Hnil)).
Qed.

End RuleFacts.

Lemma taxonomy_tokens_witness :
  exists (outs : list (list N)) (g' : rng),
    taxonomy Empty_set space_tokenize (di ++ space ++ mai) g0
    = Return (concat outs, g')
    /\ Forall2 offered [di; mai] outs.
Proof. apply (taxonomy_tokens Empty_set space_tokenize _ _ g0). reflexivity. Defined.

Lemma robustness_single_token_witness :
  exists (out : list N) (g' : rng),
    robustness Empty_set space_tokenize sample g0 = Return (out, g')
    /\ length out = length sample
    /\ sample ≡ₚ out.
Proof.
  destruct (robustness_single_token Empty_set space_tokenize sample sample g0)
    as (out & g' & Hr & _ & _ & Hlen & Hperm & _); [reflexivity|].
  by exists out, g'.
Defined.

Lemma apply_all_names_witness :
  exists (m : gmap string (list N)) (g' : rng),
    apply_all no_other_alnum Empty_set space_tokenize space g0 = Return (m, g')
    /\ dom m = builtin_names.
Proof.
  destruct (apply_all_names no_other_alnum Empty_set space_tokenize space [] g0)
    as (m & g' & Hm & Hdom & _); [reflexivity|].
  by exists m, g'.
Defined.


Lemma segmentation_outcome_witness :
  (taxonomy unit failing_tokenize sample g0 = Raise (TokenizerError tt)
   /\ robustness unit failing_tokenize sample g0 = Raise (TokenizerError tt))
  /\ (taxonomy Empty_set space_tokenize space g0 = Return ([], g0)
      /\ robustness Empty_set space_tokenize space g0 = Return ([], g0)).
Proof.
  split.
  - apply (proj1 (segmentation_outcome unit failing_tokenize sample g0) tt).
    reflexivity.
  - apply (proj2 (segmentation_outcome Empty_set space_tokenize space g0)).
    reflexivity.
Defined.

(** C1 (as stated) fails for a blank sentence: the segmentation of a single
    space is empty, and taxonomy and robustness return the empty string
    instead of raising. *)
Lemma bad_segmentation_counterexample :
  space <> []
  /\ space_tokenize space = inr []
  /\ taxonomy Empty_set space_tokenize space g0 = Return ([], g0)
  /\ robustness Empty_set space_tokenize space g0 = Return ([], g0)
  /\ ~ propagates_bad_segmentation Empty_set space_tokenize.
Proof.
  split; [done|]. split; [reflexivity|].
  split; [reflexivity|]. split; [reflexivity|].
  intros H. destruct (H space g0) as [[e He] _]; [done|by right|].
  discriminate He.
Qed.

(** * ner: three substitutions in a row are one pass over the sentence *)

Module ScanFacts.

Section WithTable.

Context (other_alnum : N -> bool).

Abbreviation isw := (Re.is_word other_alnum).
Abbreviation hdw := (Re.head_is_word other_alnum).
Abbreviation wafter := (Re.word_after other_alnum).
Abbreviation bounded := (Re.match_bounded other_alnum).
Abbreviation scan := (Aux.scan other_alnum).
Abbreviation hit := (Aux.hit other_alnum).
Abbreviation eok := (entry_ok other_alnum).

Lemma bounded_starts (lit : pystr) (pw : bool) (s : pystr) :
  bounded lit pw s = true -> starts_with s lit = true.
Proof.
  unfold Re.match_bounded. intros H.
  apply andb_true_iff in H as [H _]. by apply andb_true_iff in H as [_ H].
Qed.

Lemma bounded_head_ne (p : N) (Q : pystr) (pw : bool) (c : N) (s : pystr) :
  c <> p -> bounded (p :: Q) pw (c :: s) = false.
Proof.
  intros Hne. unfold Re.match_bounded. cbn [starts_with].
  assert ((c =? p)%N = false) as -> by by apply N.eqb_neq.
  by rewrite andb_false_r.
Qed.

Lemma wafter_app (pw : bool) (a b : pystr) :
  wafter pw (a ++ b) = wafter (wafter pw a) b.
Proof. revert pw; induction a as [|x a IH]; intros pw; simpl; [done|]. apply IH. Qed.

(** The substitution of one pattern is the scan with a one-line table. *)
Lemma sub_from_scan (lit repl : pystr) (k : nat) (pw : bool) (s : pystr) :
  Re.sub_from other_alnum lit repl k pw s = scan [(lit, repl)] k pw s.
Proof.
  revert k pw; induction s as [|c s IH]; intros k pw; [done|].
  destruct k as [|k]; cbn [Re.sub_from Aux.scan Aux.hit]; [|apply IH].
  destruct (bounded lit pw (c :: s)); by rewrite IH.
Qed.

(** Passing [k] characters over is dropping them, the last one telling
    what stands before the rest. *)
Lemma scan_skip (T : list (pystr * pystr)) (k : nat) (pw : bool) (s : pystr) :
  scan T k pw s = scan T 0 (wafter pw (take k s)) (drop k s).
Proof.
  revert k pw; induction s as [|c s IH]; intros [|k] pw; try done.
  cbn [Aux.scan take drop Re.word_after]. apply IH.
Qed.

Lemma hit_inv (T : list (pystr * pystr)) (pw : bool) (s lit name : pystr) :
  hit T pw s = Some (lit, name) ->
  (lit, name) ∈ T /\ bounded lit pw s = true.
Proof.
  induction T as [|[l n] T IH]; [done|]. cbn [Aux.hit].
  destruct (bounded l pw s) eqn:Hb.
  - intros [= -> ->]. split; [left|done].
  - intros H. destruct (IH H). split; [by right|done].
Qed.

Lemma hit_app (T T' : list (pystr * pystr)) (pw : bool) (s : pystr) :
  hit (T ++ T') pw s
  = match hit T pw s with Some r => Some r | None => hit T' pw s end.
Proof.
  induction T as [|[l n] T IH]; [done|]. cbn [app Aux.hit].
  by destruct (bounded l pw s).
Qed.

(** The steps of the scan. *)
Lemma scan_hit (T : list (pystr * pystr)) (pw : bool) (lit name u : pystr) :
  lit <> [] ->
  hit T pw (lit ++ u) = Some (lit, name) ->
  scan T 0 pw (lit ++ u) = name ++ scan T 0 (wafter pw lit) u.
Proof.
  destruct lit as [|c lit]; [done|]. intros _ Hhit.
  change ((c :: lit) ++ u) with (c :: (lit ++ u)) in *.
  cbn [Aux.scan]. rewrite Hhit. f_equal.
  rewrite scan_skip.
  replace (length (c :: lit) - 1) with (length lit) by (simpl; lia).
  by rewrite take_app_length, drop_app_length.
Qed.

Lemma scan_miss (T : list (pystr * pystr)) (pw : bool) (c : N) (t : pystr) :
  hit T pw (c :: t) = None ->
  scan T 0 pw (c :: t) = c :: scan T 0 (isw c) t.
Proof. intros H. cbn [Aux.scan]. by rewrite H. Qed.

Lemma wafter_nonempty (pw pw' : bool) (a : pystr) :
  a <> [] -> wafter pw a = wafter pw' a.
Proof. by destruct a. Qed.

Lemma hdw_app (a b : pystr) : a <> [] -> hdw (a ++ b) = hdw a.
Proof. by destruct a. Qed.

Lemma hit_entry (T : list (pystr * pystr)) (pw : bool) (s lit name : pystr) :
  Forall eok T -> hit T pw s = Some (lit, name) ->
  eok (lit, name) /\ exists u, s = lit ++ u.
Proof.
  intros HT Hhit. apply hit_inv in Hhit as [Hin Hb].
  split; [by eapply Forall_forall in HT|].
  by apply bounded_starts, starts_with_inv in Hb.
Qed.

(** The scan leaves the kind of the first character as it is. *)
Lemma scan_head (T : list (pystr * pystr)) (pw : bool) (s : pystr) :
  Forall eok T -> hdw (scan T 0 pw s) = hdw s.
Proof.
  intros HT. destruct s as [|c t]; [done|].
  destruct (hit T pw (c :: t)) as [[lit name]|] eqn:Hhit.
  - destruct (hit_entry _ _ _ _ _ HT Hhit) as [(Hl & Hn & Hh & _) [u Hu]].
    cbn [fst snd] in *. rewrite Hu in Hhit |- *.
    rewrite (scan_hit T pw lit name u Hl Hhit). by rewrite !hdw_app.
  - by rewrite scan_miss.
Qed.

(** Inert characters pass the scan as they are. *)
Lemma scan_inert (T : list (pystr * pystr)) (Q : pystr) :
  Forall eok T -> inert T Q ->
  forall (pw : bool) (t : pystr),
    starts_with (scan T 0 pw t) Q = starts_with t Q
    /\ (starts_with t Q = true ->
        scan T 0 pw t = Q ++ scan T 0 (wafter pw Q) (drop (length Q) t)).
Proof.
  intros HT HQ. induction HQ as [|x Q Hx HQ IH]; intros pw t.
  { by rewrite !starts_with_nil. }
  destruct t as [|c t]; [done|].
  destruct (hit T pw (c :: t)) as [[lit name]|] eqn:Hhit.
  - destruct (hit_entry _ _ _ _ _ HT Hhit) as [(Hl & Hn & _) [u Hu]].
    pose proof (proj1 (hit_inv _ _ _ _ _ Hhit)) as Hin.
    eapply Forall_forall in Hx as [Hx1 Hx2]; [|exact Hin]. cbn [fst snd] in *.
    rewrite Hu in Hhit |- *. rewrite (scan_hit T pw lit name u Hl Hhit).
    destruct lit as [|l lit]; [done|]. destruct name as [|n name]; [done|].
    cbn [app starts_with head] in *.
    assert ((l =? x)%N = false) as -> by (apply N.eqb_neq; congruence).
    assert ((n =? x)%N = false) as -> by (apply N.eqb_neq; congruence).
    done.
  - rewrite scan_miss by done. cbn [starts_with].
    destruct (IH (isw c) t) as [IH1 IH2]. rewrite IH1.
    split; [done|]. intros [Hc Ht]%andb_true_iff.
    apply N.eqb_eq in Hc as ->. rewrite (IH2 Ht). done.
Qed.

(** Whether the further pattern matches here is not changed by the scan of
    what follows. *)
Lemma bounded_scan (T : list (pystr * pystr)) (p : N) (Q : pystr)
    (pw : bool) (c : N) (t : pystr) :
  Forall eok T -> inert T Q ->
  bounded (p :: Q) pw (c :: scan T 0 (isw c) t) = bounded (p :: Q) pw (c :: t).
Proof.
  intros HT HQ. unfold Re.match_bounded. cbn [starts_with length drop].
  destruct (scan_inert T Q HT HQ (isw c) t) as [H1 H2]. rewrite H1.
  destruct (starts_with t Q) eqn:Ht; [|by rewrite !andb_false_r].
  rewrite (H2 eq_refl), drop_app_length. by rewrite scan_head.
Qed.

(** The further pattern does not match inside a name. *)
Lemma scan_through_name (p : N) (Q R name Y : pystr) (pw : bool) :
  p ∉ name ->
  scan [(p :: Q, R)] 0 pw (name ++ Y)
  = name ++ scan [(p :: Q, R)] 0 (wafter pw name) Y.
Proof.
  revert pw. induction name as [|n name IH]; intros pw Hp; [done|].
  apply not_elem_of_cons in Hp as [Hpn Hp].
  cbn [app Re.word_after]. rewrite scan_miss.
  - f_equal. by apply IH.
  - cbn [Aux.hit]. by rewrite bounded_head_ne.
Qed.

(** Substituting a further pattern after the scan of a table is the scan of
    the longer table. *)
Lemma scan_then_sub (T : list (pystr * pystr)) (p : N) (Q R : pystr) :
  Forall eok T -> inert T Q -> unnamed T p ->
  forall (s : pystr) (pw : bool),
    scan [(p :: Q, R)] 0 pw (scan T 0 pw s) = scan (T ++ [(p :: Q, R)]) 0 pw s.
Proof.
  intros HT HQ Hp s.
  remember (length s) as n eqn:Hn. revert s Hn.
  induction n as [n IH] using lt_wf_ind; intros s -> pw.
  destruct s as [|c t]; [done|].
  destruct (hit T pw (c :: t)) as [[lit name]|] eqn:Hhit.
  - destruct (hit_entry _ _ _ _ _ HT Hhit) as [(Hl & Hn & Hh & Hw) [u Hu]].
    pose proof (proj1 (hit_inv _ _ _ _ _ Hhit)) as Hin.
    eapply Forall_forall in Hp; [|exact Hin]. cbn [fst snd] in *.
    rewrite Hu in Hhit |- *.
    rewrite (scan_hit T pw lit name u Hl Hhit).
    rewrite (scan_hit (T ++ _) pw lit name u) by (by rewrite ?hit_app, ?Hhit).
    rewrite scan_through_name by done.
    rewrite (wafter_nonempty pw false name), <- Hw,
      (wafter_nonempty false pw lit) by done.
    f_equal. eapply IH; [|done].
    apply (f_equal length) in Hu. rewrite length_app in Hu.
    destruct lit; [done|]. simpl in *. lia.
  - rewrite (scan_miss T) by done.
    destruct (bounded (p :: Q) pw (c :: t)) eqn:Hb.
    + destruct (starts_with_inv _ _ (bounded_starts _ _ _ Hb)) as [u Hu].
      injection Hu as -> ->.
      destruct (scan_inert T Q HT HQ (isw p) (Q ++ u)) as [_ H2].
      rewrite H2, drop_app_length by apply starts_with_app.
      assert (hit (T ++ [(p :: Q, R)]) pw ((p :: Q) ++ u) = Some (p :: Q, R))
        as Hhit2.
      { rewrite hit_app. simpl app. rewrite Hhit. cbn [Aux.hit]. by rewrite Hb. }
      pose proof (scan_hit (T ++ [(p :: Q, R)]) pw (p :: Q) R u
                    ltac:(done) Hhit2) as E2.
      cbn [app] in E2. rewrite E2. clear E2.
      set (X := scan T 0 (wafter (isw p) Q) u).
      assert (hit [(p :: Q, R)] pw ((p :: Q) ++ X) = Some (p :: Q, R)) as Hhit1.
      { cbn [Aux.hit app].
        pose proof (bounded_scan T p Q pw p (Q ++ u) HT HQ) as Hbs.
        rewrite H2, drop_app_length in Hbs by apply starts_with_app.
        fold X in Hbs. by rewrite Hbs, Hb. }
      pose proof (scan_hit [(p :: Q, R)] pw (p :: Q) R X ltac:(done) Hhit1) as E1.
      cbn [app] in E1. rewrite E1. clear E1. subst X.
      f_equal. cbn [Re.word_after]. eapply IH; [|done].
      cbn [length]. rewrite length_app. lia.
    + rewrite scan_miss.
      * rewrite (scan_miss (T ++ _)).
        -- f_equal. eapply IH; [|done]. simpl. lia.
        -- rewrite hit_app, Hhit. cbn [Aux.hit]. by rewrite Hb.
      * cbn [Aux.hit]. by rewrite bounded_scan, Hb.
Qed.

End WithTable.

End ScanFacts.

Module NerFacts.

Import ScanFacts.

Section WithTable.

Context (other_alnum : N -> bool).

Abbreviation isw := (Re.is_word other_alnum).
Abbreviation wafter := (Re.word_after other_alnum).
Abbreviation lastw := (Spec.last_is_word other_alnum).
Abbreviation scan := (Aux.scan other_alnum).
Abbreviation hit := (Aux.hit other_alnum).
Abbreviation here := (Spec.whole_word_here other_alnum).
Abbreviation wwfrom := (whole_word_from other_alnum).

(** The conditions of [scan_then_sub] on a table that is written out. *)
Ltac table_facts :=
  unfold entry_ok, inert, unnamed;
  repeat (apply Forall_cons; split);
  try apply Forall_nil;
  cbn [fst snd];
  repeat split;
  try done;
  try (unfold somchai, somying; rewrite ?not_elem_of_cons;
       repeat split; (done || apply not_elem_of_nil)).

(** The three substitutions of ner are the scan of the pronoun table. *)
Lemma ner_scan (S : pystr) :
  ner other_alnum S = scan pronoun_names 0 false S.
Proof.
  unfold ner, Re.sub_bounded. rewrite !sub_from_scan.
  unfold phom, thoe.
  rewrite (scan_then_sub other_alnum [(chan, somchai)]).
  - rewrite (scan_then_sub other_alnum [(chan, somchai); (phom, somchai)]);
      [done|..]; table_facts.
  - table_facts.
  - table_facts.
  - table_facts.
Qed.

Lemma lastw_snoc (left : pystr) (c : N) : lastw (left ++ [c]) = isw c.
Proof. unfold Spec.last_is_word. by rewrite last_snoc. Qed.

Lemma lastw_app (left lit : pystr) :
  lastw (left ++ lit) = wafter (lastw left) lit.
Proof.
  revert left. induction lit as [|c lit IH]; intros left.
  - by rewrite app_nil_r.
  - rewrite (cons_middle c), app_assoc, IH, lastw_snoc. done.
Qed.

(** The boundary test on the text to the left is the test on the kind of
    its last character. *)
Lemma here_bounded (lit left s : pystr) :
  here lit left s = Re.match_bounded other_alnum lit (lastw left) s.
Proof.
  unfold Spec.whole_word_here, Spec.boundary, Re.match_bounded.
  rewrite lastw_app.
  by destruct (starts_with s lit), (xorb (lastw left) _).
Qed.

Lemma pronoun_here_hit (T : list (pystr * pystr)) (left s : pystr) :
  pronoun_here other_alnum T left s = hit T (lastw left) s.
Proof.
  induction T as [|[lit name] T IH]; [done|].
  cbn [pronoun_here Aux.hit]. by rewrite here_bounded, IH.
Qed.

Lemma replace_whole_words_scan (T : list (pystr * pystr)) (k : nat)
    (left s : pystr) :
  replace_whole_words other_alnum T k left s = scan T k (lastw left) s.
Proof.
  revert k left. induction s as [|c s IH]; intros k left; [done|].
  cbn [replace_whole_words Aux.scan]. rewrite pronoun_here_hit.
  destruct k as [|k]; [|by rewrite IH, lastw_snoc].
  destruct (hit T (lastw left) (c :: s)) as [[lit name]|];
    by rewrite IH, lastw_snoc.
Qed.

(** Where no pronoun of the table stands as a whole word, the pass keeps
    the sentence. *)
Lemma replace_whole_words_none (T : list (pystr * pystr)) (s left : pystr) :
  (forall lit name, (lit, name) ∈ T ->
                    ~ whole_word_in other_alnum lit (left ++ s)) ->
  replace_whole_words other_alnum T 0 left s = s.
Proof.
  revert left. induction s as [|c s IH]; intros left Hnone; [done|].
  cbn [replace_whole_words].
  destruct (pronoun_here other_alnum T left (c :: s)) as [[lit name]|] eqn:Hp.
  - exfalso. rewrite pronoun_here_hit in Hp.
    apply hit_inv in Hp as [Hin Hb].
    destruct (starts_with_inv _ _ (bounded_starts _ _ _ _ Hb)) as [u Hu].
    apply (Hnone lit name Hin). exists left, u.
    split; [by rewrite Hu|]. by rewrite here_bounded, <- Hu.
  - f_equal. apply IH. intros lit name Hin.
    rewrite <- app_assoc. by apply (Hnone lit name).
Qed.

Lemma whole_word_from_complete (lit : pystr) (a left rest : pystr) :
  here lit (left ++ a) rest = true ->
  wwfrom lit left (a ++ rest) = true.
Proof.
  revert left. induction a as [|c a IH]; intros left H.
  - rewrite app_nil_r in H. destruct rest; cbn [app whole_word_from];
      by rewrite H.
  - cbn [app whole_word_from]. rewrite IH; [apply orb_true_r|].
    by rewrite <- app_assoc.
Qed.

Lemma whole_word_in_from (lit S : pystr) :
  whole_word_in other_alnum lit S -> wwfrom lit [] S = true.
Proof. intros (a & b & -> & H). by apply whole_word_from_complete. Qed.

End WithTable.

(** Two whole-word occurrences of pronouns never overlap: inside a pronoun
    no pronoun starts. *)
Lemma pronouns_apart (lit name lit' name' b : pystr) (k : nat) :
  (lit, name) ∈ pronoun_names -> (lit', name') ∈ pronoun_names ->
  0 < k < length lit ->
  starts_with (drop k (lit ++ b)) lit' = false.
Proof.
  unfold pronoun_names. intros Hl Hl' Hk.
  repeat (apply elem_of_cons in Hl as [[= -> ->]|Hl]);
    [..|by apply elem_of_nil in Hl];
    (repeat (apply elem_of_cons in Hl' as [[= -> ->]|Hl']);
     [..|by apply elem_of_nil in Hl']);
    simpl in Hk; destruct k as [|[|[|k]]]; try lia; reflexivity.
Qed.

End NerFacts.

Import NerFacts.

(** C6. ner is one pass over the sentence that writes the name of a
    pronoun wherever the pronoun stands as a whole word, between two word
    boundaries of the sentence, and keeps every other character; two such
    occurrences never overlap, so none is missed; a sentence in which no
    pronoun stands as a whole word comes back as it is. *)
Theorem ner_whole_words (other_alnum : N -> bool) (S : pystr) :
  ner other_alnum S = ner_spec other_alnum S
  /\ ((forall lit name, (lit, name) ∈ pronoun_names ->
                        ~ whole_word_in other_alnum lit S) ->
      ner other_alnum S = S)
  /\ (forall lit name lit' name' left b k,
         (lit, name) ∈ pronoun_names -> (lit', name') ∈ pronoun_names ->
         0 < k < length lit ->
         whole_word_here other_alnum lit' (left ++ take k lit)
           (drop k (lit ++ b)) = false).
Proof.
  assert (ner other_alnum S = ner_spec other_alnum S) as Heq.
  { unfold ner_spec. by rewrite ner_scan, replace_whole_words_scan. }
  split; [done|]. split.
  - intros Hnone. rewrite Heq. by apply replace_whole_words_none.
  - intros lit name lit' name' left b k Hl Hl' Hk.
    unfold whole_word_here.
    by rewrite (pronouns_apart lit name lit' name' b k).
Qed.

Lemma ner_whole_words_witness :
  ner no_other_alnum sample = sample.
Proof.
  apply (proj1 (proj2 (ner_whole_words no_other_alnum sample))).
  intros lit name Hin Hw.
  apply whole_word_in_from in Hw.
  unfold pronoun_names in Hin.
  repeat (apply elem_of_cons in Hin as [[= -> ->]|Hin]);
    [..|by apply elem_of_nil in Hin]; vm_compute in Hw; discriminate Hw.
Defined.

(** * Further properties: the dispatcher *)

Section DispatchFacts.

Context (other_alnum : N -> bool) (E : Type).
Context (word_tokenize : list N -> E + list (list N)).

(** X1. A failure of the tokenizer aborts apply_all: the call raises
    that failure and returns no mapping, not even for the rules that do
    not tokenize. *)
Theorem apply_all_raises (S : pystr) (e : E) (g : rng) :
  word_tokenize S = inl e ->
  apply_all other_alnum E word_tokenize S g = Raise (TokenizerError e).
Proof.
  intros He. unfold apply_all, ALL_PERTURBATIONS. cbn [dict_comp].
  apply bind_raise. unfold taxonomy.
  apply bind_raise. by apply tokenize_raises.
Qed.

(** X2. When the tokenizer returns, every entry of the mapping is what the
    rule of that name returns on the sentence: the six deterministic rules
    directly, taxonomy on the random source as apply_all found it, and
    robustness on the random source as taxonomy left it. *)
Theorem apply_all_entries (S : pystr) (toks : list pystr) (g : rng) :
  word_tokenize S = inr toks ->
  exists (t r : list N) (g1 g2 : rng) (m : gmap string (list N)),
    taxonomy E word_tokenize S g = Return (t, g1)
    /\ robustness E word_tokenize S g1 = Return (r, g2)
    /\ apply_all other_alnum E word_tokenize S g = Return (m, g2)
    /\ m !! "taxonomy"%string = Some t
    /\ m !! "ner"%string = Some (ner other_alnum S)
    /\ m !! "negation"%string = Some (negation S)
    /\ m !! "vocab"%string = Some (vocab S)
    /\ m !! "fairness"%string = Some (fairness S)
    /\ m !! "robustness"%string = Some r
    /\ m !! "temporal"%string = Some (temporal S)
    /\ m !! "srl"%string = Some (srl S).
Proof.
  intros Htok.
  destruct (taxonomy_returns E word_tokenize S toks g Htok)
    as (outs1 & g1 & Ht & _).
  destruct (robustness_returns E word_tokenize S toks g1 Htok)
    as (outs2 & g2 & Hr & _).
  eexists _, _, g1, g2, _. split; [exact Ht|]. split; [exact Hr|].
  unfold apply_all, ALL_PERTURBATIONS. cbn [dict_comp].
  rewrite (bind_return _ _ _ _ _ Ht).
  unfold pure, ret, bind at 1 2 3 4. rewrite (bind_return _ _ _ _ _ Hr).
  unfold bind.
  split; [reflexivity|]. repeat split; reflexivity.
Qed.

End DispatchFacts.

Lemma apply_all_raises_witness :
  apply_all no_other_alnum unit failing_tokenize sample g0
  = Raise (TokenizerError tt).
Proof.
  apply (apply_all_raises no_other_alnum unit failing_tokenize sample tt g0).
  reflexivity.
Defined.

Lemma apply_all_entries_witness :
  exists (t r : list N) (g1 g2 : rng) (m : gmap string (list N)),
    apply_all no_other_alnum Empty_set space_tokenize sample g0 = Return (m, g2)
    /\ m !! "taxonomy"%string = Some t
    /\ m !! "negation"%string = Some (negation sample).
Proof.
  destruct (apply_all_entries no_other_alnum Empty_set space_tokenize
              sample [sample] g0)
    as (t & r & g1 & g2 & m & _ & _ & Hm & Ht & _ & Hn & _); [reflexivity|].
  by exists t, r, g1, g2, m.
Defined.

(** * Further properties: the rules that draw *)

Module DrawFacts.

Lemma advance_0 (g : rng) : advance 0 g = g.
Proof. by destruct g. Qed.

Lemma advance_advance (m n : nat) (g : rng) :
  advance n (advance m g) = advance (m + n) g.
Proof. unfold advance. simpl. f_equal. lia. Qed.

Lemma swapped_length (T out : pystr) : swapped T out -> length out = length T.
Proof.
  intros [[_ ->]|(pre & a & b & post & -> & ->)]; [done|].
  by rewrite !length_app.
Qed.

Lemma swapped_perm (T out : pystr) : swapped T out -> T ≡ₚ out.
Proof.
  intros [[_ ->]|(pre & a & b & post & -> & ->)]; [done|].
  apply Permutation_app_head, perm_swap.
Qed.


(** The character swap costs one draw for a token of two characters or
    more, and none for a shorter one. *)
Lemma swap_state {E} (T out : pystr) (g g' : rng) :
  _swap_adjacent_chars E T g = Return (out, g') ->
  g' = advance (if length T <? 2 then 0 else 1) g.
Proof.
  unfold _swap_adjacent_chars.
  destruct (length T <? 2).
  - intros [= _ <-]. by rewrite advance_0.
  - unfold bind, randint, randbelow. cbv zeta.
    destruct (length T - 2 <? 0); [done|].
    destruct (T !! _); [|done]. destruct (T !! _); [|done].
    by intros [= _ <-].
Qed.

(** The cost of a comprehension is the sum of the costs of its elements. *)
Lemma for_each_state {E A B} (f : A -> M E B) (cost : A -> nat) :
  (forall x g y g', f x g = Return (y, g') -> g' = advance (cost x) g) ->
  forall xs g ys g',
    for_each f xs g = Return (ys, g') ->
    g' = advance (sum_list (cost <$> xs)) g.
Proof.
  intros Hf. induction xs as [|x xs IH]; intros g ys g'.
  - intros [= _ <-]. by rewrite advance_0.
  - cbn [for_each]. unfold bind at 1.
    destruct (f x g) as [e|[y g1]] eqn:Hy; [done|].
    unfold bind at 1.
    destruct (for_each f xs g1) as [e|[ys' g2]] eqn:Hys; [done|].
    intros [= _ <-].
    rewrite (IH _ _ _ Hys), (Hf _ _ _ _ Hy), advance_advance. done.
Qed.

Lemma long_tokens_sum (toks : list pystr) :
  long_tokens toks
  = sum_list ((fun tok => if length tok <? 2 then 0 else 1) <$> toks).
Proof. induction toks as [|tok toks IH]; [done|]. simpl. by f_equal. Qed.


End DrawFacts.

Import DrawFacts.

Section DrawRuleFacts.

Context (E : Type) (word_tokenize : list N -> E + list (list N)).


Lemma robustness_state (S : pystr) (toks : list pystr) (g g' : rng) (out : pystr) :
  word_tokenize S = inr toks ->
  robustness E word_tokenize S g = Return (out, g') ->
  g' = advance (long_tokens toks) g.
Proof.
  intros Htok. unfold robustness.
  rewrite (bind_return _ _ _ _ _ (tokenize_returns E word_tokenize S toks g Htok)).
  unfold bind.
  destruct (for_each _ toks g) as [e|[outs g1]] eqn:Hfe; [done|].
  intros [= _ <-]. rewrite long_tokens_sum.
  eapply for_each_state; [|exact Hfe].
  intros tok g2 y g3 Hc. by apply swap_state in Hc.
Qed.

(** X3. Whatever the segmentation and the draws, robustness returns the
    tokens in order, each with its own characters (two neighbours exchanged,
    or untouched when shorter than two), so the output has the length of
    the joined tokens and is a permutation of their characters. *)
Theorem robustness_tokens (S : pystr) (toks : list pystr) (g : rng) :
  word_tokenize S = inr toks ->
  exists (outs : list (list N)) (g' : rng),
    robustness E word_tokenize S g = Return (concat outs, g')
    /\ Forall2 (fun tok out => length out = length tok /\ tok ≡ₚ out) toks outs
    /\ length (concat outs) = length (concat toks)
    /\ concat toks ≡ₚ concat outs.
Proof.
  intros Htok.
  destruct (robustness_returns E word_tokenize S toks g Htok)
    as (outs & g' & Hr & HR).
  exists outs, g'. split; [done|].
  assert (Forall2 (fun tok out => length out = length tok /\ tok ≡ₚ out)
            toks outs) as HF.
  { eapply Forall2_impl; [exact HR|]. intros tok out Hsw.
    split; [by apply swapped_length | by apply swapped_perm]. }
  split; [done|]. clear Htok Hr HR.
  induction HF as [|tok out toks outs [Hl Hp] HF [IH1 IH2]]; [done|].
  simpl. rewrite !length_app. split; [lia|]. by apply Permutation_app.
Qed.

(** X4. A token of two characters or more in which no two neighbours are
    equal never comes back from the character swap as it was. *)
Theorem swap_changes_token (word : pystr) (g : rng) :
  2 <= length word -> no_double word ->
  exists (out : list N) (g' : rng),
    _swap_adjacent_chars E word g = Return (out, g')
    /\ out <> word /\ length out = length word.
Proof.
  intros Hlen Hnd.
  destruct (swap_returns E word g) as (out & g' & Hr & Hsw).
  exists out, g'. split; [done|]. split; [|by apply swapped_length].
  destruct Hsw as [[Hlt _]|(pre & a & b & post & -> & ->)]; [lia|].
  intros Heq. apply app_inv_head in Heq. injection Heq as Hab _.
  eapply (Hnd (length pre) b a); [..|done].
  - by rewrite list_lookup_middle.
  - rewrite (cons_middle b), app_assoc.
    rewrite list_lookup_middle; [done|]. rewrite length_app. simpl. lia.
Qed.



(** X7. On a sentence all of whose tokens are shorter than two characters
    robustness returns the tokens joined as they are and draws nothing. *)
Theorem robustness_short_tokens (S : pystr) (toks : list pystr) (g : rng) :
  word_tokenize S = inr toks ->
  Forall (fun tok => length tok < 2) toks ->
  robustness E word_tokenize S g = Return (concat toks, g).
Proof.
  intros Htok Hshort.
  destruct (robustness_returns E word_tokenize S toks g Htok)
    as (outs & g' & Hr & HR).
  rewrite Hr, (robustness_state _ _ _ _ _ Htok Hr).
  assert (outs = toks /\ long_tokens toks = 0) as [-> ->];
    [|by rewrite advance_0].
  clear Htok Hr. induction HR as [|tok out toks outs Hsw HR IH]; [done|].
  apply Forall_cons in Hshort as [Hs Hshort].
  destruct (IH Hshort) as [-> Hz]. cbn [long_tokens]. rewrite Hz.
  assert ((length tok <? 2) = true) as -> by by apply Nat.ltb_lt.
  split; [|done]. f_equal.
  destruct Hsw as [[_ ->]|(pre & a & b & post & -> & _)]; [done|].
  rewrite length_app in Hs. simpl in Hs. lia.
Qed.

End DrawRuleFacts.

Lemma robustness_tokens_witness :
  exists (outs : list (list N)) (g' : rng),
    robustness Empty_set space_tokenize (kin ++ space ++ sample) g0
    = Return (concat outs, g')
    /\ length (concat outs) = length (kin ++ sample).
Proof.
  destruct (robustness_tokens Empty_set space_tokenize
              (kin ++ space ++ sample) [kin; sample] g0)
    as (outs & g' & Hr & _ & Hlen & _); [reflexivity|].
  exists outs, g'. split; [done|]. by rewrite Hlen.
Defined.

Lemma swap_changes_token_witness :
  exists (out : list N) (g' : rng),
    _swap_adjacent_chars Empty_set kin g0 = Return (out, g') /\ out <> kin.
Proof.
  destruct (swap_changes_token Empty_set kin g0) as (out & g' & Hr & Hne & _).
  - simpl. lia.
  - intros [|[|[|i]]] a b Ha Hb; simpl in Ha, Hb; simplify_eq; done.
  - by exists out, g'.
Defined.



Lemma robustness_short_tokens_witness :
  robustness Empty_set space_tokenize ([0xE01]%N ++ space ++ [0xE19]%N) g0
  = Return ([0xE01; 0xE19]%N, g0).
Proof.
  apply (robustness_short_tokens Empty_set space_tokenize
           ([0xE01]%N ++ space ++ [0xE19]%N) [[0xE01]%N; [0xE19]%N] g0);
    [reflexivity|].
  repeat constructor.
Defined.

(** * Further properties: how the string rules compose *)

Module ComposeFacts.

Lemma contains_no_head (p : N) (q t : pystr) :
  p ∉ t -> contains (p :: q) t = false.
Proof.
  intros Hp. rewrite <- (app_nil_r t). by rewrite contains_app_no_head.
Qed.

(** A text that starts with a character the rest of the pattern does not
    have cannot complete a copy of the pattern. *)
Lemma starts_with_app_r (q u t : pystr) (h : N) :
  h ∉ q -> starts_with (u ++ h :: t) q = starts_with u q.
Proof.
  revert u. induction q as [|x q IH]; intros u Hh.
  - by rewrite !starts_with_nil.
  - apply not_elem_of_cons in Hh as [Hne Hh].
    destruct u as [|c u]; cbn [app starts_with].
    + assert ((h =? x)%N = false) as -> by by apply N.eqb_neq. done.
    + by rewrite IH.
Qed.

Lemma contains_app_r (p : N) (q s t : pystr) (h : N) :
  p ∉ h :: t -> h ∉ q ->
  contains (p :: q) (s ++ h :: t) = contains (p :: q) s.
Proof.
  intros Hp Hh. induction s as [|c s IH].
  - by rewrite contains_no_head.
  - cbn [app]. rewrite !contains_cons, IH. f_equal.
    cbn [starts_with]. by rewrite starts_with_app_r.
Qed.

(** Such a text passes [str.replace] as it is, after what it follows. *)
Lemma replace_app_r (p : N) (q new s t : pystr) (h : N) :
  p ∉ h :: t -> h ∉ q ->
  replace (s ++ h :: t) (p :: q) new = replace s (p :: q) new ++ h :: t.
Proof.
  intros Hp Hh.
  apply (replace_ind (p :: q) new
           (fun s r => replace (s ++ h :: t) (p :: q) new = r ++ h :: t));
    [done|..].
  - apply replace_absent. by apply contains_no_head.
  - intros u IH. by rewrite <- !app_assoc, replace_hit, IH.
  - intros c u Hsw IH. cbn [app]. rewrite replace_miss, IH; [done|].
    cbn [starts_with] in Hsw |- *. by rewrite starts_with_app_r.
Qed.

(** A text without the first character of the pattern passes as it is,
    before what follows it. *)
Lemma replace_app_l (p : N) (q new pre s : pystr) :
  p ∉ pre -> replace (pre ++ s) (p :: q) new = pre ++ replace s (p :: q) new.
Proof.
  induction pre as [|a pre IH]; intros Hp; [done|].
  apply not_elem_of_cons in Hp as [Hne Hp].
  cbn [app]. rewrite replace_miss, IH; [done|done|].
  cbn [starts_with].
  assert ((a =? p)%N = false) as -> by (apply N.eqb_neq; congruence). done.
Qed.

End ComposeFacts.

Import ComposeFacts.

(** Membership in a list that is written out. *)
Ltac not_in_literal :=
  rewrite ?not_elem_of_app, ?not_elem_of_cons;
  repeat split; (done || apply not_elem_of_nil).

(** X8. The membership test of srl changes nothing: srl is the replacement
    of the verb, which never shortens the sentence, and returns the sentence
    as it is exactly when the verb does not occur in it. *)
Theorem srl_fixed_points (S : pystr) :
  srl S = replace S kin rapprathan
  /\ length S <= length (srl S)
  /\ (srl S = S <-> contains kin S = false).
Proof.
  assert (srl S = replace S kin rapprathan) as Hsrl.
  { unfold srl. destruct (contains kin S) eqn:H; [done|].
    by rewrite replace_absent. }
  split; [done|]. rewrite Hsrl.
  split; [apply replace_length_le; [done|simpl; lia]|].
  split; [|apply replace_absent].
  intros Heq. destruct (contains kin S) eqn:H; [|done].
  pose proof (replace_length_lt S kin rapprathan) as Hlt.
  rewrite Heq in Hlt. specialize (Hlt ltac:(done) ltac:(simpl; lia) H). lia.
Qed.

Lemma srl_fixed_points_witness : srl sample = sample.
Proof. apply (proj2 (proj2 (srl_fixed_points sample))). reflexivity. Defined.

(** X9. fairness never shortens a sentence and returns it as it is exactly
    when neither role noun occurs in it. *)
Theorem fairness_fixed_points (S : pystr) :
  length S <= length (fairness S)
  /\ (fairness S = S
      <-> contains teacher S = false /\ contains student S = false).
Proof.
  split.
  - unfold fairness.
    etransitivity; [apply (replace_length_le S teacher (teacher ++ female))|];
      [done|simpl; lia|].
    apply replace_length_le; [done|simpl; lia].
  - split.
    + intros Heq.
      destruct (contains teacher S) eqn:Ht, (contains student S) eqn:Hs;
        try done;
        (assert (length S < length (fairness S)) as Hlt
           by (apply fairness_grows; rewrite ?Ht, ?Hs; auto));
        rewrite Heq in Hlt; lia.
    + intros [Ht Hs]. unfold fairness.
      rewrite (replace_absent S teacher) by done. by apply replace_absent.
Qed.

Lemma fairness_fixed_points_witness : fairness sample = sample.
Proof.
  apply (proj2 (fairness_fixed_points sample)). split; reflexivity.
Defined.

(** X10. The word that vocab appends takes no part in the other string
    rules: appending it before or after negation, srl or fairness gives the
    same sentence. *)
Theorem vocab_commutes (S : pystr) :
  negation (vocab S) = vocab (negation S)
  /\ srl (vocab S) = vocab (srl S)
  /\ fairness (vocab S) = vocab (fairness S).
Proof.
  unfold vocab, space, blueberry. cbn [app].
  split; [|split].
  - unfold negation, mai.
    rewrite contains_app_r by not_in_literal.
    destruct (contains _ S); [done|]. by rewrite <- !app_assoc.
  - unfold srl, kin.
    rewrite contains_app_r by not_in_literal.
    destruct (contains _ S); [|done]. by rewrite replace_app_r by not_in_literal.
  - unfold fairness, teacher, student.
    rewrite replace_app_r by not_in_literal.
    by rewrite replace_app_r by not_in_literal.
Qed.

(** X11. The phrase that temporal prepends takes no part in srl, fairness
    and vocab, which commute with temporal; negation commutes with temporal
    exactly on the sentences that already hold the particle, since otherwise
    the particle goes before the phrase in one order and after it in the
    other. *)
Theorem temporal_commutes (S : pystr) :
  srl (temporal S) = temporal (srl S)
  /\ fairness (temporal S) = temporal (fairness S)
  /\ vocab (temporal S) = temporal (vocab S)
  /\ (negation (temporal S) = temporal (negation S)
      <-> contains mai S = true).
Proof.
  split; [|split; [|split]].
  - unfold srl, temporal, kin. rewrite !app_assoc.
    rewrite contains_app_no_head by (unfold yesterday, space; not_in_literal).
    destruct (contains _ S); [|done].
    by rewrite replace_app_l by (unfold yesterday, space; not_in_literal).
  - unfold fairness, temporal, teacher. rewrite !app_assoc.
    rewrite replace_app_l by (unfold yesterday, space; not_in_literal).
    unfold yesterday, space. cbn [app].
    by repeat (rewrite replace_miss by reflexivity).
  - unfold vocab, temporal. by rewrite <- !app_assoc.
  - unfold negation, temporal, mai. rewrite !app_assoc.
    rewrite contains_app_no_head by (unfold yesterday, space; not_in_literal).
    destruct (contains _ S); [done|].
    split; [|done]. unfold yesterday. discriminate.
Qed.

Lemma temporal_commutes_witness :
  negation (temporal maidi) = temporal (negation maidi).
Proof.
  apply (proj2 (proj2 (proj2 (proj2 (temporal_commutes maidi))))).
  reflexivity.
Defined.

(** * Further properties: ner applied again, and the length of its output *)

Module NerMoreFacts.

Import ScanFacts NerFacts.

Section WithTable.

Context (other_alnum : N -> bool).

Abbreviation isw := (Re.is_word other_alnum).
Abbreviation wafter := (Re.word_after other_alnum).
Abbreviation bounded := (Re.match_bounded other_alnum).
Abbreviation scan := (Aux.scan other_alnum).
Abbreviation hit := (Aux.hit other_alnum).
Abbreviation eok := (entry_ok other_alnum).

(** No pattern of the table matches at a character that starts none. *)
Lemma hit_head_ne (T : list (pystr * pystr)) (pw : bool) (c : N) (s : pystr) :
  Forall (fun e => exists p Q, e.1 = p :: Q /\ p <> c) T ->
  hit T pw (c :: s) = None.
Proof.
  induction 1 as [|[lit name] T (p & Q & Hlit & Hne) _ IH]; [done|].
  cbn [fst] in Hlit. subst lit. cbn [Aux.hit].
  rewrite bounded_head_ne by congruence. done.
Qed.

(** The scan passes over a text in which no pattern of the table starts. *)
Lemma scan_through (T : list (pystr * pystr)) (name Y : pystr) (pw : bool) :
  Forall (fun e => exists p Q, e.1 = p :: Q /\ p ∉ name) T ->
  scan T 0 pw (name ++ Y) = name ++ scan T 0 (wafter pw name) Y.
Proof.
  revert pw. induction name as [|n name IH]; intros pw HT; [done|].
  cbn [app Re.word_after]. rewrite scan_miss.
  - f_equal. apply IH. eapply Forall_impl; [exact HT|].
    intros e (p & Q & He & Hp). exists p, Q. split; [done|].
    by apply not_elem_of_cons in Hp as [_ Hp].
  - apply hit_head_ne. eapply Forall_impl; [exact HT|].
    intros e (p & Q & He & Hp). exists p, Q. split; [done|].
    by apply not_elem_of_cons in Hp as [Hp _].
Qed.

(** Whether a pattern of the table matches here is not changed by the scan
    of what follows. *)
Lemma hit_scan (T T' : list (pystr * pystr)) (pw : bool) (c : N) (t : pystr) :
  Forall eok T ->
  Forall (fun e => exists p Q, e.1 = p :: Q /\ inert T Q) T' ->
  hit T' pw (c :: scan T 0 (isw c) t) = hit T' pw (c :: t).
Proof.
  intros HT. induction 1 as [|[lit name] T' (p & Q & Hlit & HQ) _ IH]; [done|].
  cbn [fst] in Hlit. subst lit. cbn [Aux.hit].
  by rewrite bounded_scan, IH.
Qed.

(** Scanning the output of the scan again changes nothing, when the names
    hold no first character of a pattern and the rest of each pattern is
    inert. *)
Lemma scan_idem (T : list (pystr * pystr)) :
  Forall eok T ->
  Forall (fun e => exists p Q, e.1 = p :: Q /\ inert T Q) T ->
  Forall (fun e' => Forall (fun e => exists p Q, e.1 = p :: Q /\ p ∉ e'.2) T) T ->
  forall (s : pystr) (pw : bool),
    scan T 0 pw (scan T 0 pw s) = scan T 0 pw s.
Proof.
  intros HT Hin Hnames s.
  remember (length s) as n eqn:Hn. revert s Hn.
  induction n as [n IH] using lt_wf_ind; intros s -> pw.
  destruct s as [|c t]; [done|].
  destruct (hit T pw (c :: t)) as [[lit name]|] eqn:Hhit.
  - destruct (hit_entry _ _ _ _ _ _ HT Hhit) as [(Hl & Hnm & Hh & Hw) [u Hu]].
    pose proof (proj1 (hit_inv _ _ _ _ _ _ Hhit)) as Hmem.
    eapply Forall_forall in Hnames; [|exact Hmem]. cbn [fst snd] in *.
    rewrite Hu in Hhit |- *.
    rewrite (scan_hit _ T pw lit name u Hl Hhit).
    rewrite scan_through by done.
    rewrite (wafter_nonempty _ pw false name), <- Hw,
      (wafter_nonempty _ false pw lit) by done.
    f_equal. eapply IH; [|done].
    apply (f_equal length) in Hu. rewrite length_app in Hu.
    destruct lit; [done|]. simpl in *. lia.
  - rewrite (scan_miss _ T) by done.
    rewrite scan_miss by (by rewrite hit_scan).
    f_equal. eapply IH; [|done]. simpl. lia.
Qed.

(** A match makes the output longer than the input, when every name is
    longer than its pattern. *)
Lemma scan_length_le (T : list (pystr * pystr)) :
  Forall eok T -> Forall (fun e => length e.1 < length e.2) T ->
  forall (s : pystr) (pw : bool), length s <= length (scan T 0 pw s).
Proof.
  intros HT Hlen s.
  remember (length s) as n eqn:Hn. revert s Hn.
  induction n as [n IH] using lt_wf_ind; intros s -> pw.
  destruct s as [|c t]; [done|].
  destruct (hit T pw (c :: t)) as [[lit name]|] eqn:Hhit.
  - destruct (hit_entry _ _ _ _ _ _ HT Hhit) as [(Hl & _) [u Hu]].
    pose proof (proj1 (hit_inv _ _ _ _ _ _ Hhit)) as Hmem.
    eapply Forall_forall in Hlen; [|exact Hmem]. cbn [fst snd] in *.
    rewrite Hu in Hhit |- *.
    rewrite (scan_hit _ T pw lit name u Hl Hhit), !length_app.
    assert (length u <= length (scan T 0 (wafter pw lit) u)); [|lia].
    eapply IH; [|done].
    apply (f_equal length) in Hu. rewrite length_app in Hu.
    destruct lit; [done|]. simpl in *. lia.
  - rewrite (scan_miss _ T) by done. simpl.
    assert (length t <= length (scan T 0 (isw c) t)); [|lia].
    eapply IH; [|done]. simpl. lia.
Qed.

Lemma hit_grows (T : list (pystr * pystr)) (pw : bool) (s lit name : pystr) :
  Forall eok T -> Forall (fun e => length e.1 < length e.2) T ->
  hit T pw s = Some (lit, name) -> length s < length (scan T 0 pw s).
Proof.
  intros HT Hlen Hhit.
  destruct (hit_entry _ _ _ _ _ _ HT Hhit) as [(Hl & _) [u Hu]].
  pose proof (proj1 (hit_inv _ _ _ _ _ _ Hhit)) as Hmem.
  pose proof (scan_length_le T HT Hlen u (wafter pw lit)) as Hu'.
  eapply Forall_forall in Hlen; [|exact Hmem]. cbn [fst snd] in *.
  rewrite Hu in Hhit |- *.
  rewrite (scan_hit _ T pw lit name u Hl Hhit), !length_app. lia.
Qed.

Lemma hit_some (T : list (pystr * pystr)) (pw : bool) (s lit name : pystr) :
  (lit, name) ∈ T -> bounded lit pw s = true ->
  exists r, hit T pw s = Some r.
Proof.
  induction T as [|[l n] T IH]; intros Hmem Hb.
  - by apply elem_of_nil in Hmem.
  - cbn [Aux.hit]. destruct (bounded l pw s) eqn:Hl; [by eexists|].
    apply elem_of_cons in Hmem as [[= -> ->]|Hmem]; [congruence|]. by apply IH.
Qed.

(** A pattern that matches somewhere makes the output longer. *)
Lemma scan_length_lt (T : list (pystr * pystr)) (lit name : pystr) :
  Forall eok T -> Forall (fun e => length e.1 < length e.2) T ->
  (lit, name) ∈ T ->
  forall (a b : pystr) (pw : bool),
    bounded lit (wafter pw a) (lit ++ b) = true ->
    length (a ++ lit ++ b) < length (scan T 0 pw (a ++ lit ++ b)).
Proof.
  intros HT Hlen Hmem. induction a as [|c a IH]; intros b pw Hb.
  - destruct (hit_some T pw _ lit name Hmem Hb) as [[lit' name'] Hhit].
    by eapply hit_grows.
  - cbn [app].
    destruct (hit T pw (c :: a ++ lit ++ b)) as [[lit' name']|] eqn:Hhit.
    + by eapply hit_grows.
    + rewrite scan_miss by done. simpl.
      specialize (IH b (isw c) Hb). lia.
Qed.

End WithTable.

(** The conditions of [scan_idem] and [scan_length_lt] on the pronoun
    table. *)
Ltac pronoun_facts :=
  unfold pronoun_names, entry_ok, inert;
  repeat (apply Forall_cons; split);
  try apply Forall_nil;
  cbn [fst snd];
  try (eexists _, _; split; [reflexivity|]);
  repeat (apply Forall_cons; split);
  try apply Forall_nil;
  cbn [fst snd];
  repeat split;
  try done;
  try (simpl; lia);
  try (unfold somchai, somying; rewrite ?not_elem_of_cons;
       repeat split; (done || apply not_elem_of_nil)).

End NerMoreFacts.

Import NerMoreFacts.

(** X12. ner is idempotent: the names it writes hold no pronoun and move
    no word boundary, so a second application finds nothing to replace. *)
Theorem ner_idempotent (other_alnum : N -> bool) (S : pystr) :
  ner other_alnum (ner other_alnum S) = ner other_alnum S.
Proof.
  rewrite !NerFacts.ner_scan. apply scan_idem; pronoun_facts.
Qed.

(** X13. ner never shortens a sentence, and a sentence in which a pronoun
    stands as a whole word comes back longer, hence changed. *)
Theorem ner_grows (other_alnum : N -> bool) (S : pystr) :
  length S <= length (ner other_alnum S)
  /\ forall lit name,
       (lit, name) ∈ pronoun_names ->
       whole_word_in other_alnum lit S ->
       length S < length (ner other_alnum S) /\ ner other_alnum S <> S.
Proof.
  rewrite NerFacts.ner_scan. split.
  - apply scan_length_le; pronoun_facts.
  - intros lit name Hmem (a & b & -> & Hw).
    rewrite NerFacts.here_bounded in Hw.
    assert (Spec.last_is_word other_alnum a
            = Re.word_after other_alnum false a) as Hlast
      by apply (NerFacts.lastw_app other_alnum [] a).
    rewrite Hlast in Hw.
    pose proof (scan_length_lt other_alnum pronoun_names lit name
                  ltac:(pronoun_facts) ltac:(pronoun_facts) Hmem a b false Hw)
      as Hlt.
    split; [done|]. intros Heq. rewrite Heq in Hlt. lia.
Qed.

Lemma ner_grows_witness :
  ner no_other_alnum (phom ++ space ++ mai)
  <> phom ++ space ++ mai.
Proof.
  apply (proj2 (ner_grows no_other_alnum (phom ++ space ++ mai)) phom somchai).
  - unfold pronoun_names. repeat constructor.
  - exists [], (space ++ mai). split; reflexivity.
Defined.
